(** * Fredalizer: visual marker detection and timeline segmentation

    A shallow embedding of the detection engine of the repository
    (colour ranges, calibration, frame scanning, temporal clustering and
    range inversion) together with the properties stated for it.

    Numbers.  Every quantity of the TypeScript sources is a JavaScript
    [number].  They are embedded as exact rationals [Q]: the comparisons,
    [Math.max], [Math.min], [Math.floor], [%] and the arithmetic below are
    the exact operations, so that rounding of binary64 arithmetic, [NaN] and
    the infinities are outside the model.  Equality of numbers is [Qeq]
    ([==]), the equality that [===] decides on numbers.  The two timeline
    functions are embedded twice more: on binary64 numbers (module
    [Binary64]), where the examples are run with the arithmetic of the
    source, and on rationals with a rounding after every sum and every
    difference (module [Rounded]), where the coverage of the timeline is
    proved for the rounding of the source.  The normalization of the
    calibrator and the projection of the scanner are embedded a second
    time with every quotient and product rounded (module
    [RoundedSpatial]).

    The file also embeds the consumers of the engine: the export command
    of utils/ffmpegBuilder.ts, the export handler of App.tsx and the frame
    loop of the vision engine hook. *)

From Stdlib Require Import QArith Qminmax Qround Qpower Lqa ZArith Lia.
From Stdlib Require Import List Bool String Sorted Permutation.
From Stdlib Require Import PrimFloat FloatOps SpecFloat.
From Stdlib Require Import DecimalString.
Import ListNotations.

Set Warnings "-inexact-float".

Open Scope Q_scope.

(** ** JavaScript primitives used by the sources *)

Module JS.

(** [a < b] and [a > b] on numbers. *)
Definition ltb (a b : Q) : bool := negb (Qle_bool b a).
Definition gtb (a b : Q) : bool := ltb b a.
Definition leb (a b : Q) : bool := Qle_bool a b.

(** [a === b] on numbers. *)
Definition eqb (a b : Q) : bool := Qeq_bool a b.

(** [!a] for a number [a]: only zero is falsy (there is no [NaN] here). *)
Definition not (a : Q) : bool := Qeq_bool a 0.

Definition Math_max (a b : Q) : Q := Qmax a b.
Definition Math_min (a b : Q) : Q := Qmin a b.
Definition Math_max3 (a b c : Q) : Q := Qmax (Qmax a b) c.
Definition Math_min3 (a b c : Q) : Q := Qmin (Qmin a b) c.
Definition Math_floor (a : Q) : Q := inject_Z (Qfloor a).

(** Rounding towards zero, and the remainder [a % b], which takes the sign
    of the dividend. *)
Definition trunc (a : Q) : Z := Z.quot (Qnum a) (Zpos (Qden a)).
Definition rem (a b : Q) : Q := a - b * inject_Z (trunc (a / b)).

(** [Array.prototype.sort(compare)]: a stable sort; [x] is placed before
    the first later element [y] with [compare x y <= 0]. *)
Section Sort.
Context {A : Type} (compare : A -> A -> Q).

Fixpoint insert (x : A) (l : list A) : list A :=
  match l with
  | [] => [x]
  | y :: l' => if Qle_bool (compare x y) 0 then x :: l else y :: insert x l'
  end.

Definition sort (l : list A) : list A := fold_right insert [] l.
End Sort.

(** [Array.prototype.forEach] with a callback that updates local state. *)
Definition forEach {A S : Type} (l : list A) (f : S -> A -> S) (s : S) : S :=
  fold_left f l s.

End JS.

(** ** Data model *)

(** [Range] of utils/ffmpegBuilder.ts. *)
Module Range.
Record t : Type := mk { start : Q; end_ : Q }.
End Range.

(** [DetectionRange] of the vision engine hook. *)
Module DetectionRange.
Record t : Type := mk { start : Q; end_ : Q; confidence : Q }.
End DetectionRange.

(** ** Range inverter (App.tsx, [getKeepRanges]) *)

(** The guard of both emission tests, written [0.1] in the source. *)
Definition minSegment : Q := 1 # 10.

(** The body of the [forEach] callback; the state is the pair of the [keep]
    array and [currentCursor]. *)
Definition sweepStep (st : list Range.t * Q) (det : DetectionRange.t)
  : list Range.t * Q :=
  let (keep, currentCursor) := st in
  (if JS.gtb (DetectionRange.start det) (currentCursor + minSegment)
   then keep ++ [Range.mk currentCursor (DetectionRange.start det)]
   else keep,
   JS.Math_max currentCursor (DetectionRange.end_ det)).

Definition sweep (sortedDetections : list DetectionRange.t) : list Range.t * Q :=
  JS.forEach sortedDetections sweepStep ([], 0).

Definition byStart (a b : DetectionRange.t) : Q :=
  DetectionRange.start a - DetectionRange.start b.

Definition getKeepRanges (detections : list DetectionRange.t) (videoDuration : Q)
  : list Range.t :=
  if JS.not videoDuration then []
  else if (List.length detections =? 0)%nat
  then [Range.mk 0 videoDuration]
  else
    let sortedDetections := JS.sort byStart detections in
    let (keep, currentCursor) := sweep sortedDetections in
    if JS.ltb currentCursor (videoDuration - minSegment)
    then keep ++ [Range.mk currentCursor videoDuration]
    else keep.

(** ** Temporal clusterer (vision engine hook, [processDetections]) *)

Definition TOLERANCE : Q := 1 # 2.

(** The [for] loop over [sorted[1..]]; the state is [(ranges, start, prev)]. *)
Definition clusterStep (st : list DetectionRange.t * Q * Q) (curr : Q)
  : list DetectionRange.t * Q * Q :=
  let '(ranges, start, prev) := st in
  if JS.gtb (curr - prev) TOLERANCE
  then (ranges ++ [DetectionRange.mk start prev 1], curr, curr)
  else (ranges, start, curr).

Definition processDetections (timestamps : list Q) : list DetectionRange.t :=
  if (List.length timestamps =? 0)%nat then []
  else
    let sorted := JS.sort (fun a b => a - b) timestamps in
    (* [sorted[0]]: [sorted] is not empty here; [0] stands for [undefined] *)
    let first := hd 0 sorted in
    let '(ranges, start, prev) :=
      fold_left clusterStep (tl sorted) ([], first, first) in
    ranges ++ [DetectionRange.mk start prev 1].

(** ** The timeline functions on binary64 numbers

    The same two functions with the arithmetic of the source, IEEE 754
    binary64 with rounding to nearest, to run the examples of the
    specification as JavaScript runs them. *)

Module Binary64.

Module Range.
Record t : Type := mk { start : float; end_ : float }.
End Range.

Module DetectionRange.
Record t : Type := mk { start : float; end_ : float; confidence : float }.
End DetectionRange.

(** [!a]: zero of either sign and [NaN] are falsy. *)
Definition not (a : float) : bool := PrimFloat.eqb a 0 || PrimFloat.is_nan a.

(** [Math.max(a, b)]: [NaN] if an argument is; [+0] is larger than [-0]. *)
Definition Math_max (a b : float) : float :=
  if PrimFloat.is_nan a || PrimFloat.is_nan b then PrimFloat.nan
  else if PrimFloat.ltb a b then b
  else if PrimFloat.ltb b a then a
  else if PrimFloat.is_zero a then PrimFloat.add a b
  else a.

(** The stable sort; a comparator result that is not above zero, [NaN]
    included, leaves [x] before [y]. *)
Fixpoint insert {A : Type} (compare : A -> A -> float) (x : A) (l : list A)
  : list A :=
  match l with
  | [] => [x]
  | y :: l' =>
      if PrimFloat.ltb 0 (compare x y) then y :: insert compare x l' else x :: l
  end.

Definition sort {A : Type} (compare : A -> A -> float) (l : list A) : list A :=
  fold_right (insert compare) [] l.

Definition sweepStep (st : list Range.t * float) (det : DetectionRange.t)
  : list Range.t * float :=
  let (keep, currentCursor) := st in
  (if PrimFloat.ltb (PrimFloat.add currentCursor 0.1) (DetectionRange.start det)
   then keep ++ [Range.mk currentCursor (DetectionRange.start det)]
   else keep,
   Math_max currentCursor (DetectionRange.end_ det)).

Definition getKeepRanges (detections : list DetectionRange.t)
    (videoDuration : float) : list Range.t :=
  if not videoDuration then []
  else if (List.length detections =? 0)%nat
  then [Range.mk 0 videoDuration]
  else
    let sortedDetections :=
      sort (fun a b => PrimFloat.sub (DetectionRange.start a)
                                     (DetectionRange.start b)) detections in
    let (keep, currentCursor) :=
      fold_left sweepStep sortedDetections ([], 0%float) in
    if PrimFloat.ltb currentCursor (PrimFloat.sub videoDuration 0.1)
    then keep ++ [Range.mk currentCursor videoDuration]
    else keep.

Definition clusterStep (st : list DetectionRange.t * float * float) (curr : float)
  : list DetectionRange.t * float * float :=
  let '(ranges, start, prev) := st in
  if PrimFloat.ltb 0.5 (PrimFloat.sub curr prev)
  then (ranges ++ [DetectionRange.mk start prev 1], curr, curr)
  else (ranges, start, curr).

Definition processDetections (timestamps : list float) : list DetectionRange.t :=
  if (List.length timestamps =? 0)%nat then []
  else
    let sorted := sort PrimFloat.sub timestamps in
    let first := hd PrimFloat.nan sorted in
    let '(ranges, start, prev) :=
      fold_left clusterStep (tl sorted) ([], first, first) in
    ranges ++ [DetectionRange.mk start prev 1].

End Binary64.

(** ** The timeline functions with the rounding of the source

    The two timeline functions once more, on the finite numbers of the
    source.  A finite binary64 number is a rational, and on such numbers
    the comparisons and [Math.max] of JavaScript are the exact ones; what
    differs from the exact embedding above is that every sum and every
    difference is rounded, and that a decimal literal stands for the
    rounding of its value.  The rounding is the parameter [rnd]: the
    identity gives the exact embedding back, [rnd64] below is the rounding
    to nearest of binary64. *)

Module Rounded.
Section Arithmetic.
Variable rnd : Q -> Q.

(** [a + b] and [a - b] of the source. *)
Definition add (a b : Q) : Q := rnd (a + b).
Definition sub (a b : Q) : Q := rnd (a - b).

(** The literals [0.1] and [0.5]. *)
Definition minSegment : Q := rnd (1 # 10).
Definition TOLERANCE : Q := rnd (1 # 2).

Definition sweepStep (st : list Range.t * Q) (det : DetectionRange.t)
  : list Range.t * Q :=
  let (keep, currentCursor) := st in
  (if JS.gtb (DetectionRange.start det) (add currentCursor minSegment)
   then keep ++ [Range.mk currentCursor (DetectionRange.start det)]
   else keep,
   JS.Math_max currentCursor (DetectionRange.end_ det)).

Definition sweep (sortedDetections : list DetectionRange.t) : list Range.t * Q :=
  JS.forEach sortedDetections sweepStep ([], 0).

Definition byStart (a b : DetectionRange.t) : Q :=
  sub (DetectionRange.start a) (DetectionRange.start b).

Definition getKeepRanges (detections : list DetectionRange.t) (videoDuration : Q)
  : list Range.t :=
  if JS.not videoDuration then []
  else if (List.length detections =? 0)%nat
  then [Range.mk 0 videoDuration]
  else
    let sortedDetections := JS.sort byStart detections in
    let (keep, currentCursor) := sweep sortedDetections in
    if JS.ltb currentCursor (sub videoDuration minSegment)
    then keep ++ [Range.mk currentCursor videoDuration]
    else keep.

Definition clusterStep (st : list DetectionRange.t * Q * Q) (curr : Q)
  : list DetectionRange.t * Q * Q :=
  let '(ranges, start, prev) := st in
  if JS.gtb (sub curr prev) TOLERANCE
  then (ranges ++ [DetectionRange.mk start prev 1], curr, curr)
  else (ranges, start, curr).

Definition processDetections (timestamps : list Q) : list DetectionRange.t :=
  if (List.length timestamps =? 0)%nat then []
  else
    let sorted := JS.sort sub timestamps in
    let first := hd 0 sorted in
    let '(ranges, start, prev) :=
      fold_left clusterStep (tl sorted) ([], first, first) in
    ranges ++ [DetectionRange.mk start prev 1].

End Arithmetic.
End Rounded.

(** *** Rounding to binary64

    Rounding of a rational to the nearest binary64 number, ties to the even
    mantissa: 53 bits of mantissa, the smallest exponent -1074 of the
    subnormal numbers; the overflow to an infinity is left out, the
    numbers of a timeline being far below 2^1024. *)

(** The nearest whole number of a non-negative rational, ties to even. *)
Definition roundHalfEven (q : Q) : Z :=
  let f := Qfloor q in
  match Qcompare (q - inject_Z f) (1 # 2) with
  | Lt => f
  | Gt => (f + 1)%Z
  | Eq => if Z.even f then f else (f + 1)%Z
  end.

(** The exponent [e] with [2^e <= q < 2^(e+1)], for a positive [q]. *)
Definition binade (q : Q) : Z :=
  let k := (Z.log2 (Qnum q) - Z.log2 (Zpos (Qden q)))%Z in
  if Qle_bool (2 ^ k) q then k else (k - 1)%Z.

Definition rnd64 (x : Q) : Q :=
  if Qeq_bool x 0 then 0
  else
    let a := if Qle_bool 0 x then x else - x in
    let e := Z.max (binade a - 52) (-1074) in
    let v := inject_Z (roundHalfEven (a / 2 ^ e)) * 2 ^ e in
    if Qle_bool 0 x then v else - v.

(** The rational that a finite binary64 number is. *)
Definition toQ (f : float) : Q :=
  match Prim2SF f with
  | S754_finite s m e =>
      (if s then - inject_Z (Zpos m) else inject_Z (Zpos m)) * 2 ^ e
  | _ => 0
  end.

(** ** Rectangles and intersection over union (utils/visionDetection.ts) *)

Module Rect.
Record t : Type := mk { x : Q; y : Q; width : Q; height : Q }.
End Rect.

Definition calculateIoU (rectA rectB : Rect.t) : Q :=
  let xA := JS.Math_max (Rect.x rectA) (Rect.x rectB) in
  let yA := JS.Math_max (Rect.y rectA) (Rect.y rectB) in
  let xB := JS.Math_min (Rect.x rectA + Rect.width rectA)
                        (Rect.x rectB + Rect.width rectB) in
  let yB := JS.Math_min (Rect.y rectA + Rect.height rectA)
                        (Rect.y rectB + Rect.height rectB) in
  let interW := JS.Math_max 0 (xB - xA) in
  let interH := JS.Math_max 0 (yB - yA) in
  if JS.leb interW 0 || JS.leb interH 0 then 0
  else
    let interArea := interW * interH in
    let areaA := Rect.width rectA * Rect.height rectA in
    let areaB := Rect.width rectB * Rect.height rectB in
    let unionArea := areaA + areaB - interArea in
    if JS.gtb unionArea 0 then interArea / unionArea else 0.

(** ** Colour profile builder (vision calibration, [getHsvRange]) *)

(** [HSVRange]: two arrays [h, s, v, alpha]. *)
Module HSVRange.
Record t : Type := mk { lower : list Q; upper : list Q }.
End HSVRange.

Module Tolerance.
Record t : Type := mk { h : Q; s : Q; v : Q }.
End Tolerance.

(** The default value of the [tolerance] parameter. *)
Definition defaultTolerance : Tolerance.t := Tolerance.mk 10 40 40.

(** [rgb] is a three element array, read at [rgb[0]], [rgb[1]], [rgb[2]]. *)
Definition getHsvRange (rgb : Q * Q * Q) (tolerance : Tolerance.t) : HSVRange.t :=
  let '(rgb0, rgb1, rgb2) := rgb in
  let r := rgb0 / 255 in
  let g := rgb1 / 255 in
  let b := rgb2 / 255 in
  let max := JS.Math_max3 r g b in
  let min := JS.Math_min3 r g b in
  let delta := max - min in
  let h :=
    if JS.eqb delta 0 then 0
    else if JS.eqb max r then 60 * JS.rem ((g - b) / delta) 6
    else if JS.eqb max g then 60 * ((b - r) / delta + 2)
    else if JS.eqb max b then 60 * ((r - g) / delta + 4)
    else 0 in
  let h := if JS.ltb h 0 then h + 360 else h in
  let s := if JS.eqb max 0 then 0 else delta / max in
  let v := max in
  let cvH := h / 2 in
  let cvS := s * 255 in
  let cvV := v * 255 in
  let lower := [ JS.Math_max 0 (cvH - Tolerance.h tolerance);
                 JS.Math_max 0 (cvS - Tolerance.s tolerance);
                 JS.Math_max 0 (cvV - Tolerance.v tolerance);
                 0 ] in
  let upper := [ JS.Math_min 180 (cvH + Tolerance.h tolerance);
                 JS.Math_min 255 (cvS + Tolerance.s tolerance);
                 JS.Math_min 255 (cvV + Tolerance.v tolerance);
                 255 ] in
  HSVRange.mk lower upper.

(** Channel [i] of a bound; the arrays built above have four elements. *)
Definition channel (i : nat) (bound : list Q) : Q := nth i bound 0.

(** ** Vision profile and the OpenCV interface *)

Module NormalizedBox.
Record t : Type := mk { x : Q; y : Q; w : Q; h : Q }.
End NormalizedBox.

Module Spatial.
Record t : Type := mk { normalizedBox : NormalizedBox.t; aspectRatio : Q }.
End Spatial.

Module Bounds.
Record t : Type := mk { dark : HSVRange.t; light : HSVRange.t; white : HSVRange.t }.
End Bounds.

Module VisionProfile.
Record t : Type := mk { bounds : Bounds.t; spatial : Spatial.t }.
End VisionProfile.

(** [TARGET_COLORS]. *)
Definition MENU_DARK : Q * Q * Q := (14, 4, 49).
Definition MENU_LIGHT : Q * Q * Q := (50, 4, 139).
Definition TEXT_WHITE : Q * Q * Q := (255, 255, 255).

(** The global [cv] object.  The sources only compose its operations, so the
    interface lists the compositions they use, as total functions:
    - [maskContours m range]: [cvtColor] to HSV, [inRange] with [range], then
      [findContours] with [RETR_EXTERNAL], in the order of the contour vector;
    - [roiCount m rect range]: [roi(rect)] of the HSV image, [inRange] with
      [range], then [countNonZero]. *)
Class OpenCV (Image Mat Contour : Type) : Type := {
  imread : Image -> Mat;
  cols : Mat -> Q;
  rows : Mat -> Q;
  maskContours : Mat -> HSVRange.t -> list Contour;
  boundingRect : Contour -> Rect.t;
  contourArea : Contour -> Q;
  roiCount : Mat -> Rect.t -> HSVRange.t -> Q
}.

Section Engine.
Context {Image Mat Contour : Type}.

(** *** Frame scanner ([scanFrame]) *)

Definition expectedRect `{OpenCV Image Mat Contour}
    (srcFrame : Mat) (profile : VisionProfile.t) : Rect.t :=
  let fw := cols srcFrame in
  let fh := rows srcFrame in
  let nb := Spatial.normalizedBox (VisionProfile.spatial profile) in
  Rect.mk (JS.Math_floor (NormalizedBox.x nb * fw))
          (JS.Math_floor (NormalizedBox.y nb * fh))
          (JS.Math_floor (NormalizedBox.w nb * fw))
          (JS.Math_floor (NormalizedBox.h nb * fh)).

(** The triad check on the region of interest of one candidate. *)
Definition triadCheck `{OpenCV Image Mat Contour}
    (srcFrame : Mat) (profile : VisionProfile.t) (rect : Rect.t) : bool :=
  let area := Rect.width rect * Rect.height rect in
  let lightCount :=
    roiCount srcFrame rect (Bounds.light (VisionProfile.bounds profile)) in
  let lightRatio := lightCount / area in
  let whiteCount :=
    roiCount srcFrame rect (Bounds.white (VisionProfile.bounds profile)) in
  let whiteRatio := whiteCount / area in
  JS.gtb lightRatio (1 # 100) && JS.gtb whiteRatio (1 # 100).

(** The loop over the contour vector: [continue] below the spatial lock,
    [break] once [detected] is set. *)
Fixpoint scanLoop `{OpenCV Image Mat Contour}
    (srcFrame : Mat) (profile : VisionProfile.t) (expected : Rect.t)
    (contours : list Contour) : bool :=
  match contours with
  | [] => false
  | contour :: rest =>
      let rect := boundingRect contour in
      let iou := calculateIoU rect expected in
      if JS.ltb iou (3 # 10) then scanLoop srcFrame profile expected rest
      else if triadCheck srcFrame profile rect then true
      else scanLoop srcFrame profile expected rest
  end.

(** [cv] is [None] when [typeof cv === 'undefined'].  The [debugMode]
    parameter only adds console output, and the [try]/[catch]/[finally]
    blocks only release matrices and log: with the total operations of the
    interface nothing is thrown, so neither is embedded. *)
Definition scanFrame (cv : option (OpenCV Image Mat Contour))
    (srcFrame : Mat) (profile : VisionProfile.t) : bool :=
  match cv with
  | None => false
  | Some cv =>
      let expected := expectedRect srcFrame profile in
      let contours :=
        maskContours srcFrame (Bounds.dark (VisionProfile.bounds profile)) in
      scanLoop srcFrame profile expected contours
  end.

(** *** Reference calibrator ([calibrateReference]) *)

(** The loop that keeps the first contour of strictly largest area; the
    state is [(maxArea, bestRect)], [bestRect] being [None] for [null]. *)
Definition largestStep `{OpenCV Image Mat Contour}
    (st : Q * option Rect.t) (cnt : Contour) : Q * option Rect.t :=
  let (maxArea, bestRect) := st in
  let area := contourArea cnt in
  if JS.gtb area maxArea then (area, Some (boundingRect cnt))
  else (maxArea, bestRect).

Definition largestContour `{OpenCV Image Mat Contour}
    (contours : list Contour) : Q * option Rect.t :=
  fold_left largestStep contours (0, None).

Definition notLoaded : string := "OpenCV is not loaded yet.".
Definition calibrationFailed : string :=
  "Calibration failed: Could not detect the menu box in the reference image.".

Definition whiteBounds : HSVRange.t :=
  HSVRange.mk [0; 0; 200; 0] [180; 30; 255; 255].

(** A thrown [Error] is [inl] of its message; the [catch] block logs and
    rethrows, the [finally] block releases the matrices. *)
Definition calibrateReference (cv : option (OpenCV Image Mat Contour))
    (image : Image) : string + VisionProfile.t :=
  match cv with
  | None => inl notLoaded
  | Some cv =>
      let darkBounds := getHsvRange MENU_DARK (Tolerance.mk 20 50 50) in
      let lightBounds := getHsvRange MENU_LIGHT (Tolerance.mk 15 50 50) in
      let src := imread image in
      let contours := maskContours src darkBounds in
      let (maxArea, bestRect) := largestContour contours in
      let totalPixels := cols src * rows src in
      match bestRect with
      | Some bestRect =>
          if JS.gtb maxArea (totalPixels * (1 # 100))
          then
            let spatial :=
              Spatial.mk
                (NormalizedBox.mk (Rect.x bestRect / cols src)
                                  (Rect.y bestRect / rows src)
                                  (Rect.width bestRect / cols src)
                                  (Rect.height bestRect / rows src))
                (Rect.width bestRect / Rect.height bestRect) in
            inr (VisionProfile.mk
                   (Bounds.mk darkBounds lightBounds whiteBounds) spatial)
          else inl calibrationFailed
      | None => inl calibrationFailed
      end
  end.

End Engine.

(** ** Normalization and projection with the rounding of the source

    The normalized box that [calibrateReference] stores for a bounding box,
    and the rectangle that [scanFrame] projects from a profile, with every
    quotient and every product rounded by [rnd]; [Math.floor] is exact. *)

Module RoundedSpatial.
Section Arithmetic.
Context {Image Mat Contour : Type} {cv : OpenCV Image Mat Contour}.
Variable rnd : Q -> Q.

(** [spatial.normalizedBox] of [calibrateReference] for [bestRect]. *)
Definition normalizedBox (src : Mat) (bestRect : Rect.t) : NormalizedBox.t :=
  NormalizedBox.mk (rnd (Rect.x bestRect / cols src))
                   (rnd (Rect.y bestRect / rows src))
                   (rnd (Rect.width bestRect / cols src))
                   (rnd (Rect.height bestRect / rows src)).

(** [expectedRect] of [scanFrame]. *)
Definition expectedRect (srcFrame : Mat) (profile : VisionProfile.t) : Rect.t :=
  let fw := cols srcFrame in
  let fh := rows srcFrame in
  let nb := Spatial.normalizedBox (VisionProfile.spatial profile) in
  Rect.mk (JS.Math_floor (rnd (NormalizedBox.x nb * fw)))
          (JS.Math_floor (rnd (NormalizedBox.y nb * fh)))
          (JS.Math_floor (rnd (NormalizedBox.w nb * fw)))
          (JS.Math_floor (rnd (NormalizedBox.h nb * fh))).

End Arithmetic.
End RoundedSpatial.

(** ** Export command (utils/ffmpegBuilder.ts, [buildEditCommand]) *)

(** The callback of [forEach] receives each element with its index. *)
Definition indexed {A : Type} (l : list A) : list (A * nat) :=
  combine l (seq 0 (List.length l)).

Section FfmpegBuilder.
(** The conversion of a number to a string inside a template literal. *)
Variable numberToString : Q -> string.

Definition indexToString (i : nat) : string :=
  numberToString (inject_Z (Z.of_nat i)).

(** The two chains added to [filterComplex] for one range, and the labels
    added to [concatInputs]. *)
Definition videoTrim (range : Range.t) (i : nat) : string :=
  ("[0:v]trim=start=" ++ numberToString (Range.start range)
   ++ ":end=" ++ numberToString (Range.end_ range)
   ++ ",setpts=PTS-STARTPTS[v" ++ indexToString i ++ "];")%string.

Definition audioTrim (range : Range.t) (i : nat) : string :=
  ("[0:a]atrim=start=" ++ numberToString (Range.start range)
   ++ ":end=" ++ numberToString (Range.end_ range)
   ++ ",asetpts=PTS-STARTPTS[a" ++ indexToString i ++ "];")%string.

Definition concatLabels (i : nat) : string :=
  ("[v" ++ indexToString i ++ "][a" ++ indexToString i ++ "]")%string.

(** The body of the [forEach] callback; the state is
    [(filterComplex, concatInputs)]. *)
Definition segmentStep (st : string * string) (ri : Range.t * nat)
  : string * string :=
  let (filterComplex, concatInputs) := st in
  let (range, i) := ri in
  let filterComplex := (filterComplex ++ videoTrim range i)%string in
  let filterComplex := (filterComplex ++ audioTrim range i)%string in
  let concatInputs := (concatInputs ++ concatLabels i)%string in
  (filterComplex, concatInputs).

Definition buildEditCommand (ranges : list Range.t) (outputName : string)
  : list string :=
  let args := ["-i"; "input.mp4"]%string in
  if (List.length ranges =? 0)%nat then args ++ [outputName]
  else
    let (filterComplex, concatInputs) :=
      JS.forEach (indexed ranges) segmentStep (""%string, ""%string) in
    let filterComplex :=
      (filterComplex
       ++ (concatInputs ++ "concat=n=" ++ indexToString (List.length ranges)
           ++ ":v=1:a=1[outv][outa]"))%string in
    let args := args ++ ["-filter_complex"%string; filterComplex] in
    let args := args ++ ["-map"; "[outv]"; "-map"; "[outa]"]%string in
    let args :=
      args ++ ["-c:v"; "libx264"; "-crf"; "18"; "-preset"; "ultrafast"]%string in
    let args := args ++ ["-c:a"; "aac"]%string in
    args ++ [outputName].

(** The filter graph as its documentation describes it: one video and one
    audio trim per range, in order, then the labels of all segments, then
    the concat filter with the number of segments. *)
Definition filterGraph (ranges : list Range.t) : string :=
  (String.concat "" (map (fun ri => videoTrim (fst ri) (snd ri)
                                    ++ audioTrim (fst ri) (snd ri))
                         (indexed ranges))
   ++ String.concat "" (map (fun ri => concatLabels (snd ri)) (indexed ranges))
   ++ "concat=n=" ++ indexToString (List.length ranges)
   ++ ":v=1:a=1[outv][outa]")%string.

End FfmpegBuilder.

(** ** Export handler (App.tsx, [handleExport]) *)



(** ** Frame loop of the vision engine hook ([processFrame]) *)

(** [Math.round]: to the nearest integer, halves upwards. *)
Definition Math_round (a : Q) : Q := inject_Z (Qfloor (a + (1 # 2))).

(** What the frame callback updates: [rawDetectionsRef.current], the
    [frameCount] of its closure and the [progress] of the hook state. *)
Module ScanState.
Record t : Type := mk { rawDetections : list Q; frameCount : nat; progress : Q }.
End ScanState.

Section FrameLoop.
Context {Image Mat Contour : Type}.
Variable cv : option (OpenCV Image Mat Contour).
Variable profile : VisionProfile.t.
(** [video.duration]. *)
Variable duration : Q.

(** One call of [processFrame] on a frame that is delivered (no abort is
    signalled): [frame] is the matrix read back from the canvas with
    [metadata.mediaTime]. *)
Definition processFrame (st : ScanState.t) (frame : Mat * Q) : ScanState.t :=
  let (mat, mediaTime) := frame in
  let isDetected := scanFrame cv mat profile in
  let rawDetections :=
    if isDetected then ScanState.rawDetections st ++ [mediaTime]
    else ScanState.rawDetections st in
  let frameCount := S (ScanState.frameCount st) in
  let progress :=
    if (frameCount mod 30 =? 0)%nat
    then JS.Math_min 100 (Math_round (mediaTime / duration * 100))
    else ScanState.progress st in
  ScanState.mk rawDetections frameCount progress.

(** The callbacks of a whole video, from the state that [processVideo]
    resets, and the ranges it finalizes when the video has ended. *)
Definition scanFrames (frames : list (Mat * Q)) : ScanState.t :=
  fold_left processFrame frames (ScanState.mk [] 0 0).

Definition finalizeRanges (frames : list (Mat * Q)) : list DetectionRange.t :=
  processDetections (ScanState.rawDetections (scanFrames frames)).

End FrameLoop.

(** * Specification vocabulary *)

(** The sweep started with an empty [keep] array and the cursor at [c],
    followed by the emission of the final segment. *)
Definition keepFrom (c : Q) (l : list DetectionRange.t) (D : Q) : list Range.t :=
  let (keep, currentCursor) := fold_left sweepStep l ([], c) in
  if JS.ltb currentCursor (D - minSegment)
  then keep ++ [Range.mk currentCursor D]
  else keep.

(** [chained lo keep c]: the ranges of [keep] follow each other from [lo] to
    [c], each one longer than [minSegment] and starting no earlier than the
    end of the one before. *)
Fixpoint chained (lo : Q) (keep : list Range.t) (c : Q) : Prop :=
  match keep with
  | [] => lo <= c
  | r :: keep' =>
      lo <= Range.start r
      /\ Range.start r + minSegment < Range.end_ r
      /\ chained (Range.end_ r) keep' c
  end.

(** The three parts of the output invariant of the inverter. *)
Definition sortedByStart (keep : list Range.t) : Prop :=
  StronglySorted (fun r1 r2 => Range.start r1 < Range.start r2) keep.

Definition pairwiseDisjoint (keep : list Range.t) : Prop :=
  ForallOrdPairs (fun r1 r2 => Range.end_ r1 <= Range.start r2) keep.

Definition longerThanMinSegment (keep : list Range.t) : Prop :=
  Forall (fun r => minSegment < Range.end_ r - Range.start r) keep.








(** A gap [(a, b)] that the inverter leaves out: the guard of the emission
    is false for it, as the source evaluates it.  Before a detection that
    starts at [b] the guard is [b > a + 0.1]; before the end [D] of the
    video it is [a < D - 0.1]. *)
Definition leftOut (rnd : Q -> Q) (D a b : Q) : Prop :=
  b <= Rounded.add rnd a (Rounded.minSegment rnd)
  \/ (b == D /\ Rounded.sub rnd D (Rounded.minSegment rnd) <= a).





(** A point lies in the interior of a rectangle. *)
Definition interior (r : Rect.t) (px py : Q) : Prop :=
  (Rect.x r < px /\ px < Rect.x r + Rect.width r)
  /\ (Rect.y r < py /\ py < Rect.y r + Rect.height r).

(** The three channels that [getHsvRange] widens, as functions of the
    normalized colour: [cvH], [cvS] and [cvV] of the source. *)
Definition cvHue (r g b : Q) : Q :=
  let max := JS.Math_max3 r g b in
  let min := JS.Math_min3 r g b in
  let delta := max - min in
  let h :=
    if JS.eqb delta 0 then 0
    else if JS.eqb max r then 60 * JS.rem ((g - b) / delta) 6
    else if JS.eqb max g then 60 * ((b - r) / delta + 2)
    else if JS.eqb max b then 60 * ((r - g) / delta + 4)
    else 0 in
  let h := if JS.ltb h 0 then h + 360 else h in
  h / 2.

Definition cvSaturation (r g b : Q) : Q :=
  let max := JS.Math_max3 r g b in
  let min := JS.Math_min3 r g b in
  let delta := max - min in
  (if JS.eqb max 0 then 0 else delta / max) * 255.

Definition cvValue (r g b : Q) : Q := JS.Math_max3 r g b * 255.

(** The acceptance condition of the scanner for one background contour:
    the spatial lock on its bounding box, then the two densities of the
    triad check inside that box. *)
Definition accepted {Image Mat Contour : Type} (cv : OpenCV Image Mat Contour)
    (srcFrame : Mat) (profile : VisionProfile.t) (contour : Contour) : Prop :=
  let rect := boundingRect contour in
  let area := Rect.width rect * Rect.height rect in
  (3 # 10) <= calculateIoU rect (expectedRect srcFrame profile)
  /\ (1 # 100)
     < roiCount srcFrame rect (Bounds.light (VisionProfile.bounds profile)) / area
  /\ (1 # 100)
     < roiCount srcFrame rect (Bounds.white (VisionProfile.bounds profile)) / area.

(** The threshold of the calibrator: 1% of the pixels of the reference. *)
Definition areaThreshold {Image Mat Contour : Type} (cv : OpenCV Image Mat Contour)
    (src : Mat) : Q :=
  cols src * rows src * (1 # 100).

(** The bounding box of a contour, normalized by the size of the image. *)
Definition normalized {Image Mat Contour : Type} (cv : OpenCV Image Mat Contour)
    (src : Mat) (contour : Contour) : NormalizedBox.t :=
  let bestRect := boundingRect contour in
  NormalizedBox.mk (Rect.x bestRect / cols src) (Rect.y bestRect / rows src)
                   (Rect.width bestRect / cols src)
                   (Rect.height bestRect / rows src).

(** A fixture: a 640x360 image whose background mask has two components, a
    10x10 speck and a 200x100 panel at (100, 50); 500 pixels of every region
    match the accent range, and as many the text range. *)
Definition fixtureCv : OpenCV unit unit Rect.t := {|
  imread := fun image => image;
  cols := fun _ => 640;
  rows := fun _ => 360;
  maskContours := fun _ _ => [Rect.mk 0 0 10 10; Rect.mk 100 50 200 100];
  boundingRect := fun contour => contour;
  contourArea := fun contour => Rect.width contour * Rect.height contour;
  roiCount := fun _ _ _ => 500
|}.

Definition fixtureProfile : VisionProfile.t :=
  VisionProfile.mk
    (Bounds.mk (getHsvRange MENU_DARK (Tolerance.mk 20 50 50))
               (getHsvRange MENU_LIGHT (Tolerance.mk 15 50 50))
               whiteBounds)
    (Spatial.mk (NormalizedBox.mk (100 / 640) (50 / 360) (200 / 640) (100 / 360))
                (200 / 100)).

(** The ranges that the loop of [processDetections] closes from the state
    [(start, prev)] on, the one closed after the loop included. *)
Fixpoint clusterFrom (start prev : Q) (rest : list Q) : list DetectionRange.t :=
  match rest with
  | [] => [DetectionRange.mk start prev 1]
  | curr :: rest' =>
      if JS.gtb (curr - prev) TOLERANCE
      then DetectionRange.mk start prev 1 :: clusterFrom curr curr rest'
      else clusterFrom start curr rest'
  end.

(** Two detection ranges are separated by more than the tolerance. *)
Definition apart (r1 r2 : DetectionRange.t) : Prop :=
  DetectionRange.end_ r1 + TOLERANCE < DetectionRange.start r2.


(** The binary64 numbers nearest to 0.6 and to 1.1. *)
Definition sixTenths64 : Q := 5404319552844595 # 9007199254740992.
Definition elevenTenths64 : Q := 2476979795053773 # 2251799813685248.

(** A rectangle that lies inside an image of the given width and height. *)
Definition insideImage (width height : Q) (rect : Rect.t) : Prop :=
  0 <= Rect.x rect /\ 0 <= Rect.y rect
  /\ 0 <= Rect.width rect /\ 0 <= Rect.height rect
  /\ Rect.x rect + Rect.width rect <= width
  /\ Rect.y rect + Rect.height rect <= height.


(** A number that [Math.floor] leaves unchanged. *)
Definition isInteger (a : Q) : Prop := JS.Math_floor a == a.

(** A bounding box in whole pixels, of positive width and height, as
    [cv.boundingRect] returns them. *)
Definition pixelBox (rect : Rect.t) : Prop :=
  isInteger (Rect.x rect) /\ isInteger (Rect.y rect)
  /\ isInteger (Rect.width rect) /\ isInteger (Rect.height rect)
  /\ 0 < Rect.width rect /\ 0 < Rect.height rect.

(** [e] is the whole number [v] or the one below it. *)
Definition oneBelow (v e : Q) : Prop := e == v \/ e == v - 1.

(** The largest frame side, in pixels, of the bounds below: 8192. *)
Definition maxSide : Q := 8192.

(** A fixture: a 200x100 box at (100, 49) of the fixture image, and a
    profile that stores its normalized box as binary64 rounds it. *)
Definition fixtureBox : Rect.t := Rect.mk 100 49 200 100.

Definition roundedFixtureProfile : VisionProfile.t :=
  VisionProfile.mk
    (VisionProfile.bounds fixtureProfile)
    (Spatial.mk (@RoundedSpatial.normalizedBox unit unit Rect.t fixtureCv
                   rnd64 tt fixtureBox)
                2).

(** A conversion of whole numbers, to run [buildEditCommand]. *)
Definition wholeToString (a : Q) : string :=
  NilEmpty.string_of_int (Z.to_int (Qfloor a)).

(** A fixture: three frames of the fixture image, at 1, 1.2 and 5 seconds. *)
Definition fixtureFrames : list (unit * Q) := [(tt, 1); (tt, 12 # 10); (tt, 5)].

(** * Properties *)

(** ** Comparisons *)

Lemma ltb_lt (a b : Q) : JS.ltb a b = true <-> a < b.
Proof.
  unfold JS.ltb. rewrite negb_true_iff, <- not_true_iff_false, Qle_bool_iff.
  split; [apply Qnot_le_lt | apply Qlt_not_le].
Qed.

Lemma ltb_ge (a b : Q) : JS.ltb a b = false <-> b <= a.
Proof.
  unfold JS.ltb. rewrite negb_false_iff. apply Qle_bool_iff.
Qed.

Lemma gtb_gt (a b : Q) : JS.gtb a b = true <-> b < a.
Proof. apply ltb_lt. Qed.

Lemma gtb_le (a b : Q) : JS.gtb a b = false <-> a <= b.
Proof. apply ltb_ge. Qed.

Lemma leb_le (a b : Q) : JS.leb a b = true <-> a <= b.
Proof. apply Qle_bool_iff. Qed.

Lemma leb_gt (a b : Q) : JS.leb a b = false <-> b < a.
Proof.
  unfold JS.leb. rewrite <- not_true_iff_false, Qle_bool_iff.
  split; [apply Qnot_le_lt | apply Qlt_not_le].
Qed.

Lemma eqb_eq (a b : Q) : JS.eqb a b = true <-> a == b.
Proof. apply Qeq_bool_iff. Qed.

Lemma eqb_neq (a b : Q) : JS.eqb a b = false <-> ~ a == b.
Proof.
  unfold JS.eqb. rewrite <- not_true_iff_false, Qeq_bool_iff. tauto.
Qed.

Lemma not_nonzero (a : Q) : ~ a == 0 -> JS.not a = false.
Proof. intros H. apply eqb_neq, H. Qed.

(** ** The sweep of the range inverter *)

Lemma sweep_snoc (pre : list DetectionRange.t) (det : DetectionRange.t) :
  sweep (pre ++ [det]) = sweepStep (sweep pre) det.
Proof. unfold sweep, JS.forEach. apply fold_left_app. Qed.

Lemma getKeepRanges_nil (D : Q) :
  ~ D == 0 -> getKeepRanges [] D = [Range.mk 0 D].
Proof.
  intros HD. unfold getKeepRanges. rewrite (not_nonzero _ HD). reflexivity.
Qed.

(** C4. With a positive duration the empty detection list is inverted to
    the single range [0, duration]; the detection {2, 4} against duration 10
    is inverted to [{0, 2}, {4, 10}]. *)
Theorem getKeepRanges_base_cases :
  (forall D : Q, 0 < D -> getKeepRanges [] D = [Range.mk 0 D])
  /\ getKeepRanges [DetectionRange.mk 2 4 1] 10 = [Range.mk 0 2; Range.mk 4 10].
Proof.
  split; [| reflexivity].
  intros D HD. apply getKeepRanges_nil.
  intros E. rewrite E in HD. apply (Qlt_irrefl _ HD).
Qed.

Lemma getKeepRanges_base_cases_witness :
  0 < 10 /\ getKeepRanges [] 10 = [Range.mk 0 10].
Proof.
  split; [reflexivity |].
  apply (proj1 getKeepRanges_base_cases). reflexivity.
Defined.

(** C10. With a zero duration no range is kept, whatever the detections
    are; in particular the empty detection list does not give the
    whole-video range. *)
Theorem getKeepRanges_zero_duration :
  (forall (detections : list DetectionRange.t) (D : Q),
      D == 0 -> getKeepRanges detections D = [])
  /\ getKeepRanges [] 0 <> [Range.mk 0 0].
Proof.
  split; [| discriminate].
  intros detections D HD. unfold getKeepRanges.
  replace (JS.not D) with true; [reflexivity |].
  symmetry. apply eqb_eq, HD.
Qed.

Lemma getKeepRanges_zero_duration_witness :
  0 == 0 /\ getKeepRanges [DetectionRange.mk 2 4 1] 0 = [].
Proof.
  split; [reflexivity |].
  apply (proj1 getKeepRanges_zero_duration). reflexivity.
Defined.

(** ** The stable sort *)

Section SortFacts.
Context {A : Type} (compare : A -> A -> Q).

Lemma insert_Forall (P : A -> Prop) (x : A) (l : list A) :
  P x -> Forall P l -> Forall P (JS.insert compare x l).
Proof.
  intros Hx Hl. induction Hl as [| y l Hy Hl IH]; simpl.
  - constructor; [exact Hx | constructor].
  - destruct (Qle_bool (compare x y) 0).
    + constructor; [exact Hx |]. constructor; assumption.
    + constructor; assumption.
Qed.

Lemma sort_Forall (P : A -> Prop) (l : list A) :
  Forall P l -> Forall P (JS.sort compare l).
Proof.
  unfold JS.sort. induction 1 as [| x l Hx Hl IH]; simpl.
  - constructor.
  - apply insert_Forall; assumption.
Qed.

End SortFacts.

(** ** The output invariant of the inverter *)

Lemma sweep_from (l : list DetectionRange.t) (keep0 : list Range.t) (c : Q) :
  fold_left sweepStep l (keep0, c)
  = (keep0 ++ fst (fold_left sweepStep l ([], c)),
     snd (fold_left sweepStep l ([], c))).
Proof.
  revert keep0 c. induction l as [| d l IH]; intros keep0 c; simpl.
  - rewrite app_nil_r. reflexivity.
  - destruct (JS.gtb (DetectionRange.start d) (c + minSegment)).
    + rewrite (IH (keep0 ++ _)), (IH [_]). simpl.
      rewrite <- app_assoc. reflexivity.
    + rewrite (IH keep0). reflexivity.
Qed.

Lemma getKeepRanges_keepFrom (detections : list DetectionRange.t) (D : Q) :
  ~ D == 0 -> detections <> [] ->
  getKeepRanges detections D = keepFrom 0 (JS.sort byStart detections) D.
Proof.
  intros HD Hne. unfold getKeepRanges. rewrite (not_nonzero _ HD).
  destruct detections as [| d l]; [contradiction | reflexivity].
Qed.

Lemma keepFrom_cons (c : Q) (d : DetectionRange.t) (l : list DetectionRange.t) (D : Q) :
  keepFrom c (d :: l) D
  = (if JS.gtb (DetectionRange.start d) (c + minSegment)
     then [Range.mk c (DetectionRange.start d)] else [])
    ++ keepFrom (JS.Math_max c (DetectionRange.end_ d)) l D.
Proof.
  unfold keepFrom. cbn [fold_left sweepStep].
  destruct (JS.gtb (DetectionRange.start d) (c + minSegment)); cbn [app].
  - rewrite sweep_from.
    destruct (fold_left sweepStep l ([], JS.Math_max c (DetectionRange.end_ d)))
      as [keep c'].
    cbn [fst snd]. destruct (JS.ltb c' (D - minSegment)); reflexivity.
  - reflexivity.
Qed.

Lemma keepFrom_app (c : Q) (l1 l2 : list DetectionRange.t) (D : Q) :
  keepFrom c (l1 ++ l2) D
  = fst (fold_left sweepStep l1 ([], c))
    ++ keepFrom (snd (fold_left sweepStep l1 ([], c))) l2 D.
Proof.
  unfold keepFrom. rewrite fold_left_app.
  destruct (fold_left sweepStep l1 ([], c)) as [k1 c1]. cbn [fst snd].
  rewrite sweep_from.
  destruct (fold_left sweepStep l2 ([], c1)) as [k2 c2]. cbn [fst snd].
  destruct (JS.ltb c2 (D - minSegment)); [rewrite app_assoc |]; reflexivity.
Qed.

(** C3. One more detection [det] after the swept prefix [pre] appends the
    range [(cursor, det.start)] to [keep] exactly when
    [det.start > cursor + minSegment]; otherwise [keep] is unchanged, in
    particular when [det.start] equals [cursor + minSegment].  In the list
    returned by [getKeepRanges] that range, or nothing, stands between the
    ranges kept before [det] and those kept after it. *)
Theorem sweep_emission_exclusive (pre : list DetectionRange.t) (det : DetectionRange.t) :
  let keep := fst (sweep pre) in
  let cursor := snd (sweep pre) in
  let keep' := fst (sweep (pre ++ [det])) in
  (keep' = keep ++ [Range.mk cursor (DetectionRange.start det)]
   <-> cursor + minSegment < DetectionRange.start det)
  /\ (keep' = keep <-> DetectionRange.start det <= cursor + minSegment)
  /\ (DetectionRange.start det == cursor + minSegment -> keep' = keep)
  /\ (forall (detections post : list DetectionRange.t) (D : Q),
         ~ D == 0 ->
         JS.sort byStart detections = pre ++ det :: post ->
         getKeepRanges detections D
         = keep
           ++ (if JS.gtb (DetectionRange.start det) (cursor + minSegment)
               then [Range.mk cursor (DetectionRange.start det)] else [])
           ++ keepFrom (JS.Math_max cursor (DetectionRange.end_ det)) post D).
Proof.
  cbv zeta. rewrite sweep_snoc.
  split; [| split; [| split]].
  4: { intros detections post D HD Hsort.
       rewrite getKeepRanges_keepFrom; [| exact HD |].
       - rewrite Hsort, keepFrom_app, keepFrom_cons. reflexivity.
       - intros ->. destruct pre; discriminate. }
  all: destruct (sweep pre) as [keep cursor]; cbn [fst snd sweepStep].
  all: assert (Hlen : forall r : Range.t, keep ++ [r] <> keep)
    by (intros r E; apply (f_equal (@List.length _)) in E;
        rewrite length_app in E; simpl in E; lia).
  all: destruct (JS.gtb (DetectionRange.start det) (cursor + minSegment)) eqn:G;
    [apply gtb_gt in G | apply gtb_le in G].
  - split; intros; auto.
  - split; intros H; [exfalso; apply (Hlen _ (eq_sym H)) |].
    exfalso. apply (Qlt_not_le _ _ H G).
  - split; intros H; [exfalso; apply (Hlen _ H) |].
    exfalso. apply (Qlt_not_le _ _ G H).
  - split; intros; auto.
  - intros H. exfalso. rewrite H in G. apply (Qlt_irrefl _ G).
  - intros _. reflexivity.
Qed.

Lemma sweep_emission_exclusive_witness :
  let pre := [DetectionRange.mk 1 2 1] in
  let det := DetectionRange.mk (21 # 10) 4 1 in
  let post := [DetectionRange.mk 6 7 1] in
  let detections :=
    [DetectionRange.mk 6 7 1; DetectionRange.mk 1 2 1; DetectionRange.mk (21 # 10) 4 1] in
  DetectionRange.start det == snd (sweep pre) + minSegment
  /\ ~ 10 == 0
  /\ JS.sort byStart detections = pre ++ det :: post
  /\ fst (sweep (pre ++ [det])) = fst (sweep pre)
  /\ getKeepRanges detections 10
     = [Range.mk 0 1; Range.mk 4 6; Range.mk 7 10].
Proof.
  cbv zeta.
  assert (H1 : DetectionRange.start (DetectionRange.mk (21 # 10) 4 1)
               == snd (sweep [DetectionRange.mk 1 2 1]) + minSegment)
    by reflexivity.
  assert (H2 : ~ 10 == 0) by discriminate.
  assert (H3 : JS.sort byStart
                 [DetectionRange.mk 6 7 1; DetectionRange.mk 1 2 1;
                  DetectionRange.mk (21 # 10) 4 1]
               = [DetectionRange.mk 1 2 1] ++ DetectionRange.mk (21 # 10) 4 1
                 :: [DetectionRange.mk 6 7 1])
    by reflexivity.
  destruct (sweep_emission_exclusive [DetectionRange.mk 1 2 1]
              (DetectionRange.mk (21 # 10) 4 1)) as (_ & _ & Hb & Hout).
  split; [exact H1 |]. split; [exact H2 |]. split; [exact H3 |].
  split; [exact (Hb H1) |].
  rewrite (Hout _ _ 10 H2 H3). reflexivity.
Defined.

Lemma chained_weaken (keep : list Range.t) (lo c c' : Q) :
  chained lo keep c -> c <= c' -> chained lo keep c'.
Proof.
  revert lo. induction keep as [| r keep IH]; simpl; intros lo H Hc.
  - apply (Qle_trans _ _ _ H Hc).
  - destruct H as (H1 & H2 & H3). auto.
Qed.

Lemma chained_snoc (keep : list Range.t) (lo c s c' : Q) :
  chained lo keep c -> c + minSegment < s -> s <= c' ->
  chained lo (keep ++ [Range.mk c s]) c'.
Proof.
  revert lo. induction keep as [| r keep IH]; simpl; intros lo H Hs Hc.
  - auto.
  - destruct H as (H1 & H2 & H3). auto.
Qed.

Lemma sweepStep_chained (keep : list Range.t) (c : Q) (d : DetectionRange.t) :
  DetectionRange.start d <= DetectionRange.end_ d ->
  chained 0 keep c ->
  chained 0 (fst (sweepStep (keep, c) d)) (snd (sweepStep (keep, c) d)).
Proof.
  intros Hd H. unfold sweepStep, JS.Math_max. cbn [fst snd].
  destruct (JS.gtb (DetectionRange.start d) (c + minSegment)) eqn:G.
  - apply gtb_gt in G. apply chained_snoc; [exact H | exact G |].
    apply (Qle_trans _ _ _ Hd), Q.le_max_r.
  - apply (chained_weaken _ _ _ _ H), Q.le_max_l.
Qed.

Lemma sweep_chained (l : list DetectionRange.t) (keep : list Range.t) (c : Q) :
  Forall (fun d => DetectionRange.start d <= DetectionRange.end_ d) l ->
  chained 0 keep c ->
  chained 0 (fst (fold_left sweepStep l (keep, c)))
            (snd (fold_left sweepStep l (keep, c))).
Proof.
  intros Hl. revert keep c.
  induction Hl as [| d l Hd Hl IH]; intros keep c H.
  - exact H.
  - cbn [fold_left]. pose proof (sweepStep_chained keep c d Hd H) as Hs.
    destruct (sweepStep (keep, c) d) as [keep' c']. apply IH, Hs.
Qed.

Lemma chained_lower (keep : list Range.t) (lo c : Q) :
  chained lo keep c -> Forall (fun r => lo <= Range.start r) keep.
Proof.
  revert lo. induction keep as [| r keep IH]; simpl; intros lo H.
  - constructor.
  - destruct H as (H1 & H2 & H3). constructor; [exact H1 |].
    apply IH in H3. revert H3. apply Forall_impl. intros r' Hr'.
    unfold minSegment in H2. lra.
Qed.

Lemma chained_invariant (keep : list Range.t) (lo c : Q) :
  chained lo keep c ->
  sortedByStart keep /\ pairwiseDisjoint keep /\ longerThanMinSegment keep.
Proof.
  revert lo. induction keep as [| r keep IH]; simpl; intros lo H.
  - repeat split; constructor.
  - destruct H as (H1 & H2 & H3).
    pose proof (chained_lower _ _ _ H3) as Hlow.
    destruct (IH _ H3) as (I1 & I2 & I3).
    repeat split; constructor; try assumption.
    + revert Hlow. apply Forall_impl. intros r' Hr'.
      unfold minSegment in H2. lra.
    + lra.
Qed.

(** C2. For a duration above 0.1 and detections with [start <= end], the
    ranges returned by [getKeepRanges] are sorted by strictly ascending
    start, each one ends no later than every following one starts, and each
    one is longer than 0.1. *)
Theorem getKeepRanges_invariant (detections : list DetectionRange.t) (D : Q) :
  minSegment < D ->
  Forall (fun d => DetectionRange.start d <= DetectionRange.end_ d) detections ->
  sortedByStart (getKeepRanges detections D)
  /\ pairwiseDisjoint (getKeepRanges detections D)
  /\ longerThanMinSegment (getKeepRanges detections D).
Proof.
  intros HD Hdets.
  assert (HD0 : ~ D == 0) by (unfold minSegment in HD; intros E; lra).
  cut (exists c, chained 0 (getKeepRanges detections D) c).
  { intros [c Hc]. apply (chained_invariant _ 0 c Hc). }
  destruct detections as [| d l].
  - exists D. rewrite (getKeepRanges_nil D HD0). simpl.
    unfold minSegment in *. repeat split; lra.
  - rewrite getKeepRanges_keepFrom; [| exact HD0 | discriminate].
    unfold keepFrom.
    pose proof (sweep_chained (JS.sort byStart (d :: l)) [] 0
                  (sort_Forall _ _ _ Hdets) (Qle_refl 0)) as H.
    destruct (fold_left sweepStep (JS.sort byStart (d :: l)) ([], 0))
      as [keep c].
    cbn [fst snd] in H.
    destruct (JS.ltb c (D - minSegment)) eqn:G.
    + exists D. apply ltb_lt in G. apply chained_snoc; [exact H | lra | lra].
    + exists c. exact H.
Qed.

Lemma getKeepRanges_invariant_witness :
  let detections := [DetectionRange.mk 6 7 1; DetectionRange.mk 2 4 1] in
  minSegment < 10
  /\ Forall (fun d => DetectionRange.start d <= DetectionRange.end_ d) detections
  /\ sortedByStart (getKeepRanges detections 10)
  /\ pairwiseDisjoint (getKeepRanges detections 10)
  /\ longerThanMinSegment (getKeepRanges detections 10).
Proof.
  cbv zeta. split; [reflexivity |].
  assert (H : Forall (fun d => DetectionRange.start d <= DetectionRange.end_ d)
                [DetectionRange.mk 6 7 1; DetectionRange.mk 2 4 1])
    by (repeat constructor; discriminate).
  split; [exact H |].
  apply getKeepRanges_invariant; [reflexivity | exact H].
Defined.

(** ** Coverage of the timeline *)




(** *** The embedding with rounding *)

(** Without rounding, the embedding with rounding is the exact one. *)
Lemma rounded_exact (detections : list DetectionRange.t) (D : Q) :
  Rounded.getKeepRanges (fun x => x) detections D = getKeepRanges detections D.
Proof. reflexivity. Qed.

Lemma rounded_exact_clusters (timestamps : list Q) :
  Rounded.processDetections (fun x => x) timestamps = processDetections timestamps.
Proof. reflexivity. Qed.

(** Without rounding, the gaps left out are those of length at most
    [minSegment]. *)
Lemma leftOut_exact (D a b : Q) :
  leftOut (fun x => x) D a b <-> b - a <= minSegment.
Proof.
  unfold leftOut, Rounded.add, Rounded.sub, Rounded.minSegment, minSegment.
  split.
  - intros [H | [E H]]; lra.
  - intros H. left. lra.
Qed.

(** With a rounding that moves the numbers between -1 and [D + 1] by at
    most [eps], a gap left out is longer than a tenth by at most
    [2 * eps]. *)
Lemma leftOut_length (rnd : Q -> Q) (eps D a b : Q) :
  0 <= eps -> eps <= 1 # 2 -> 0 <= a -> a <= D ->
  (forall x, -1 <= x -> x <= D + 1 -> x - eps <= rnd x /\ rnd x <= x + eps) ->
  leftOut rnd D a b -> b - a <= (1 # 10) + 2 * eps.
Proof.
  unfold leftOut, Rounded.add, Rounded.sub, Rounded.minSegment.
  intros He0 He1 Ha0 HaD Hrnd Hout.
  destruct (Hrnd (1 # 10)) as [H0 H1]; [lra | lra |].
  destruct Hout as [H | [E H]].
  - destruct (Hrnd (a + rnd (1 # 10))) as [_ H2]; lra.
  - destruct (Hrnd (D - rnd (1 # 10))) as [H2 _]; lra.
Qed.

(** *** The rounding to binary64 *)



(** The nearest whole number is within a half of the number. *)
Lemma roundHalfEven_near (q : Q) :
  q - (1 # 2) <= inject_Z (roundHalfEven q)
  /\ inject_Z (roundHalfEven q) <= q + (1 # 2).
Proof.
  unfold roundHalfEven. cbv zeta.
  pose proof (Qfloor_le q) as Hlo. pose proof (Qlt_floor q) as Hhi.
  rewrite inject_Z_plus in Hhi. change (inject_Z 1) with 1 in Hhi.
  destruct (Qcompare (q - inject_Z (Qfloor q)) (1 # 2)) eqn:C.
  - apply Qeq_alt in C.
    destruct (Z.even _);
      [| rewrite inject_Z_plus; change (inject_Z 1) with 1]; lra.
  - apply Qlt_alt in C. lra.
  - apply Qgt_alt in C. rewrite inject_Z_plus. change (inject_Z 1) with 1. lra.
Qed.

(** The exponent found by [binade] is not above the number. *)
Lemma binade_le (a : Q) : 0 < a -> 2 ^ binade a <= a.
Proof.
  intros Ha. unfold binade. cbv zeta.
  set (k := (Z.log2 (Qnum a) - Z.log2 (Z.pos (Qden a)))%Z).
  destruct (Qle_bool (2 ^ k) a) eqn:T; [apply Qle_bool_iff, T |].
  destruct a as [n d]. cbn [Qnum Qden] in k.
  assert (Hn : (0 < n)%Z).
  { unfold Qlt in Ha. cbn in Ha. lia. }
  destruct (Z.log2_spec n Hn) as [Hn1 _].
  destruct (Z.log2_spec (Z.pos d) eq_refl) as [_ Hd2].
  assert (E : 2 ^ (k - 1)
              == inject_Z (2 ^ Z.log2 n) / inject_Z (2 ^ Z.succ (Z.log2 (Z.pos d)))).
  { rewrite !Zpower_Qpower;
      [| apply Z.le_le_succ_r, Z.log2_nonneg | apply Z.log2_nonneg].
    rewrite <- Qpower_minus by discriminate.
    replace (k - 1)%Z with (Z.log2 n - Z.succ (Z.log2 (Z.pos d)))%Z
      by (unfold k; lia).
    reflexivity. }
  rewrite E.
  assert (Hp : 0 < inject_Z (2 ^ Z.succ (Z.log2 (Z.pos d)))).
  { change 0 with (inject_Z 0). rewrite <- Zlt_Qlt.
    apply Z.pow_pos_nonneg; [lia | apply Z.le_le_succ_r, Z.log2_nonneg]. }
  apply Qle_shift_div_r; [exact Hp |].
  unfold Qle, Qmult, inject_Z. cbn [Qnum Qden].
  rewrite !Z.mul_1_r, Pos.mul_1_r.
  apply Z.mul_le_mono_nonneg; try lia; apply Z.pow_nonneg; lia.
Qed.

(** The error of the rounding to binary64, for a number of magnitude at
    most [2^K] in the range of the normal numbers. *)
Lemma rnd64_error (K : Z) (x : Q) :
  (-1022 <= K)%Z -> - 2 ^ K <= x -> x <= 2 ^ K ->
  x - 2 ^ (K - 53) <= rnd64 x /\ rnd64 x <= x + 2 ^ (K - 53).
Proof.
  intros HK Hlo Hhi.
  assert (Heps : 0 < 2 ^ (K - 53)) by (apply Qpower_0_lt; reflexivity).
  unfold rnd64.
  destruct (Qeq_bool x 0) eqn:E0; [apply Qeq_bool_iff in E0; lra |].
  assert (Hx0 : ~ x == 0).
  { intros E. apply Qeq_bool_iff in E. congruence. }
  cbv zeta.
  set (a := if Qle_bool 0 x then x else - x).
  assert (Ha : 0 < a /\ a <= 2 ^ K).
  { unfold a. destruct (Qle_bool 0 x) eqn:S.
    - apply Qle_bool_iff in S. lra.
    - assert (x < 0).
      { destruct (Qlt_le_dec x 0) as [H | H]; [exact H |].
        apply Qle_bool_iff in H. congruence. }
      lra. }
  destruct Ha as [Ha0 HaK].
  set (e := Z.max (binade a - 52) (-1074)).
  assert (He : (e <= K - 52)%Z).
  { assert (binade a <= K)%Z; [| unfold e; lia].
    apply (Qpower_le_compat_l_inv 2); [| reflexivity].
    apply (Qle_trans _ a); [apply binade_le, Ha0 | exact HaK]. }
  assert (Hp : 0 < 2 ^ e) by (apply Qpower_0_lt; reflexivity).
  assert (Hpe : 2 ^ e <= 2 * 2 ^ (K - 53)).
  { apply (Qle_trans _ (2 ^ (K - 52))).
    - apply Qpower_le_compat_l; [exact He | discriminate].
    - replace (K - 52)%Z with (1 + (K - 53))%Z by lia.
      rewrite Qpower_plus by discriminate. apply Qle_refl. }
  destruct (roundHalfEven_near (a / 2 ^ e)) as [M0 M1].
  set (m := inject_Z (roundHalfEven (a / 2 ^ e))) in *.
  assert (Eq : a / 2 ^ e * 2 ^ e == a) by (field; lra).
  set (q := a / 2 ^ e) in *. set (p := 2 ^ e) in *.
  assert (V0 : a - p * (1 # 2) <= m * p).
  { rewrite <- Eq. assert (H : (q - (1 # 2)) * p <= m * p)
      by (apply Qmult_le_compat_r; [exact M0 | lra]). lra. }
  assert (V1 : m * p <= a + p * (1 # 2)).
  { rewrite <- Eq. assert (H : m * p <= (q + (1 # 2)) * p)
      by (apply Qmult_le_compat_r; [exact M1 | lra]). lra. }
  unfold a in V0, V1. destruct (Qle_bool 0 x); lra.
Qed.

(** With the rounding to binary64 and a duration of at most [2^K - 1]
    seconds, a gap that the inverter leaves out is longer than a tenth by
    at most [2^(K - 52)]: less than a picosecond for a video of an hour. *)
Lemma rnd64_leftOut_length (K : Z) (D a b : Q) :
  (0 <= K <= 52)%Z -> D + 1 <= 2 ^ K -> 0 <= a -> a <= D ->
  leftOut rnd64 D a b -> b - a <= (1 # 10) + 2 ^ (K - 52).
Proof.
  intros [HK HK'] HD Ha0 HaD Hout.
  assert (H1 : 1 <= 2 ^ K).
  { change 1 with (2 ^ 0). apply Qpower_le_compat_l; [exact HK | discriminate]. }
  assert (E : 2 ^ (K - 52) == 2 * 2 ^ (K - 53)).
  { replace (K - 52)%Z with (1 + (K - 53))%Z by lia.
    rewrite Qpower_plus by discriminate. reflexivity. }
  assert (Heps0 : 0 < 2 ^ (K - 53)) by (apply Qpower_0_lt; reflexivity).
  assert (Heps1 : 2 ^ (K - 53) <= 1 # 2).
  { apply (Qle_trans _ (2 ^ (-1))); [| discriminate].
    apply Qpower_le_compat_l; [lia | discriminate]. }
  rewrite E.
  apply (leftOut_length rnd64 (2 ^ (K - 53)) D a b); try assumption; try lra.
  intros x Hx0 Hx1. apply rnd64_error; [lia | lra | lra].
Qed.

(** *** The sweep with rounding *)

Section RoundedSweep.
Variable rnd : Q -> Q.








End RoundedSweep.




(** ** The clusterer *)

(** C5. The empty list is clustered to the empty sequence, a single
    timestamp [t] to the one range {t, t, 1}, and [1.0, 1.3, 1.6, 5.0] to
    [{1.0, 1.6}, {5.0, 5.0}]; two timestamps [a <= b] are split when
    [b - a] exceeds the tolerance and merged otherwise. *)
Theorem processDetections_defined_outputs :
  processDetections [] = []
  /\ (forall t : Q, processDetections [t] = [DetectionRange.mk t t 1])
  /\ processDetections [1; 13 # 10; 16 # 10; 5]
     = [DetectionRange.mk 1 (16 # 10) 1; DetectionRange.mk 5 5 1]
  /\ (forall a b : Q, a <= b ->
        (TOLERANCE < b - a ->
         processDetections [a; b]
         = [DetectionRange.mk a a 1; DetectionRange.mk b b 1])
        /\ (b - a <= TOLERANCE ->
            processDetections [a; b] = [DetectionRange.mk a b 1])).
Proof.
  split; [reflexivity |]. split; [reflexivity |]. split; [reflexivity |].
  intros a b Hab.
  assert (S : JS.sort (fun x y => x - y) [a; b] = [a; b]).
  { cbn. replace (Qle_bool (a - b) 0) with true; [reflexivity |].
    symmetry. apply Qle_bool_iff. lra. }
  unfold processDetections. cbn [List.length Nat.eqb]. rewrite S.
  cbn [hd tl fold_left clusterStep].
  split; intros H.
  - replace (JS.gtb (b - a) TOLERANCE) with true; [reflexivity |].
    symmetry. apply gtb_gt, H.
  - replace (JS.gtb (b - a) TOLERANCE) with false; [reflexivity |].
    symmetry. apply gtb_le, H.
Qed.

Lemma processDetections_defined_outputs_witness :
  1 <= 2 /\ 1 # 2 < 2 - 1
  /\ processDetections [1; 2] = [DetectionRange.mk 1 1 1; DetectionRange.mk 2 2 1].
Proof.
  split; [discriminate |]. split; [reflexivity |].
  apply (proj2 (proj2 (proj2 processDetections_defined_outputs)) 1 2).
  - discriminate.
  - reflexivity.
Defined.

(** ** Intersection over union *)

(** The value computed after the corners of the intersection. *)
Lemma calculateIoU_corners (rectA rectB : Rect.t) :
  forall xA yA xB yB : Q,
    xA == Qmax (Rect.x rectA) (Rect.x rectB) ->
    yA == Qmax (Rect.y rectA) (Rect.y rectB) ->
    xB == Qmin (Rect.x rectA + Rect.width rectA) (Rect.x rectB + Rect.width rectB) ->
    yB == Qmin (Rect.y rectA + Rect.height rectA) (Rect.y rectB + Rect.height rectB) ->
    (xB - xA <= 0 \/ yB - yA <= 0 -> calculateIoU rectA rectB == 0)
    /\ (0 < xB - xA -> 0 < yB - yA ->
        let interArea := (xB - xA) * (yB - yA) in
        let unionArea := Rect.width rectA * Rect.height rectA
                         + Rect.width rectB * Rect.height rectB - interArea in
        (0 < unionArea -> calculateIoU rectA rectB == interArea / unionArea)
        /\ (unionArea <= 0 -> calculateIoU rectA rectB == 0)).
Proof.
  intros xA yA xB yB ExA EyA ExB EyB.
  unfold calculateIoU, JS.Math_max, JS.Math_min. cbv zeta.
  set (interW := Qmax 0 (Qmin (Rect.x rectA + Rect.width rectA)
                              (Rect.x rectB + Rect.width rectB)
                         - Qmax (Rect.x rectA) (Rect.x rectB))).
  set (interH := Qmax 0 (Qmin (Rect.y rectA + Rect.height rectA)
                              (Rect.y rectB + Rect.height rectB)
                         - Qmax (Rect.y rectA) (Rect.y rectB))).
  set (a := Rect.width rectA * Rect.height rectA).
  set (b := Rect.width rectB * Rect.height rectB).
  assert (EW : interW == Qmax 0 (xB - xA))
    by (unfold interW; rewrite ExA, ExB; reflexivity).
  assert (EH : interH == Qmax 0 (yB - yA))
    by (unfold interH; rewrite EyA, EyB; reflexivity).
  clearbody interW interH.
  destruct (Q.max_spec 0 (xB - xA)) as [[Hw Ew] | [Hw Ew]]; rewrite Ew in EW;
    destruct (Q.max_spec 0 (yB - yA)) as [[Hh Eh] | [Hh Eh]]; rewrite Eh in EH;
    (destruct (JS.leb interW 0) eqn:CW;
      [apply leb_le in CW | apply leb_gt in CW]);
    (destruct (JS.leb interH 0) eqn:CH;
      [apply leb_le in CH | apply leb_gt in CH]);
    cbn [orb]; try (exfalso; lra);
    try (split; [reflexivity | intros; exfalso; lra]).
  split; [intros [H | H]; exfalso; lra |]. intros _ _.
  assert (EU : a + b - interW * interH == a + b - (xB - xA) * (yB - yA))
    by (rewrite EW, EH; reflexivity).
  destruct (JS.gtb (a + b - interW * interH) 0) eqn:CU;
    [apply gtb_gt in CU | apply gtb_le in CU]; rewrite EU in CU;
    split; intros Hu.
  - rewrite EW, EH. reflexivity.
  - exfalso. apply (Qlt_not_le _ _ CU Hu).
  - exfalso. apply (Qlt_not_le _ _ Hu CU).
  - reflexivity.
Qed.

Lemma calculateIoU_self (A : Rect.t) :
  0 < Rect.width A -> 0 < Rect.height A -> calculateIoU A A == 1.
Proof.
  intros Hw Hh.
  destruct (calculateIoU_corners A A (Rect.x A) (Rect.y A)
              (Rect.x A + Rect.width A) (Rect.y A + Rect.height A))
    as [_ H].
  - symmetry. apply Q.max_l, Qle_refl.
  - symmetry. apply Q.max_l, Qle_refl.
  - symmetry. apply Q.min_l, Qle_refl.
  - symmetry. apply Q.min_l, Qle_refl.
  - pose proof (Qmult_lt_0_compat _ _ Hw Hh) as Harea.
    destruct H as [H _]; [lra | lra |]. cbv zeta in H.
    rewrite H.
    + field. intros E.
      assert (E' : Rect.width A * Rect.height A == 0) by (rewrite <- E; ring).
      lra.
    + assert (E : (Rect.x A + Rect.width A - Rect.x A)
                  * (Rect.y A + Rect.height A - Rect.y A)
                  == Rect.width A * Rect.height A) by ring.
      rewrite E. lra.
Qed.

Lemma calculateIoU_disjoint (A B : Rect.t) :
  (forall px py, ~ (interior A px py /\ interior B px py)) ->
  calculateIoU A B == 0.
Proof.
  intros Hdis.
  set (xA := Qmax (Rect.x A) (Rect.x B)).
  set (yA := Qmax (Rect.y A) (Rect.y B)).
  set (xB := Qmin (Rect.x A + Rect.width A) (Rect.x B + Rect.width B)).
  set (yB := Qmin (Rect.y A + Rect.height A) (Rect.y B + Rect.height B)).
  destruct (calculateIoU_corners A B xA yA xB yB) as [H _];
    try reflexivity.
  apply H.
  destruct (Qlt_le_dec 0 (xB - xA)) as [Hw | Hw]; [| left; exact Hw].
  destruct (Qlt_le_dec 0 (yB - yA)) as [Hh | Hh]; [| right; exact Hh].
  exfalso. apply (Hdis ((xA + xB) * (1 # 2)) ((yA + yB) * (1 # 2))).
  assert (Rect.x A <= xA) by apply Q.le_max_l.
  assert (Rect.x B <= xA) by apply Q.le_max_r.
  assert (Rect.y A <= yA) by apply Q.le_max_l.
  assert (Rect.y B <= yA) by apply Q.le_max_r.
  assert (xB <= Rect.x A + Rect.width A) by apply Q.le_min_l.
  assert (xB <= Rect.x B + Rect.width B) by apply Q.le_min_r.
  assert (yB <= Rect.y A + Rect.height A) by apply Q.le_min_l.
  assert (yB <= Rect.y B + Rect.height B) by apply Q.le_min_r.
  clearbody xA yA xB yB.
  unfold interior. repeat split; lra.
Qed.

Lemma calculateIoU_sym (A B : Rect.t) : calculateIoU A B == calculateIoU B A.
Proof.
  set (xA := Qmax (Rect.x A) (Rect.x B)).
  set (yA := Qmax (Rect.y A) (Rect.y B)).
  set (xB := Qmin (Rect.x A + Rect.width A) (Rect.x B + Rect.width B)).
  set (yB := Qmin (Rect.y A + Rect.height A) (Rect.y B + Rect.height B)).
  destruct (calculateIoU_corners A B xA yA xB yB) as [H0 H1];
    try reflexivity.
  destruct (calculateIoU_corners B A xA yA xB yB) as [H0' H1'];
    try (apply Q.max_comm); try (apply Q.min_comm).
  destruct (Qlt_le_dec 0 (xB - xA)) as [Hw | Hw];
    [| rewrite H0, H0' by (left; exact Hw); reflexivity].
  destruct (Qlt_le_dec 0 (yB - yA)) as [Hh | Hh];
    [| rewrite H0, H0' by (right; exact Hh); reflexivity].
  specialize (H1 Hw Hh). specialize (H1' Hw Hh). cbv zeta in H1, H1'.
  destruct H1 as [Hp Hn], H1' as [Hp' Hn'].
  set (i := (xB - xA) * (yB - yA)) in *.
  set (a := Rect.width A * Rect.height A) in *.
  set (b := Rect.width B * Rect.height B) in *.
  destruct (Qlt_le_dec 0 (a + b - i)) as [Hu | Hu].
  - rewrite Hp by exact Hu. rewrite Hp' by lra.
    assert (E : a + b - i == b + a - i) by ring.
    rewrite E. reflexivity.
  - rewrite Hn by exact Hu. rewrite Hn' by lra. reflexivity.
Qed.

(** A positive overlap ratio needs a first rectangle of positive width and
    height: the divisions of the triad check, which comes after the spatial
    lock, are by a positive area. *)
Lemma calculateIoU_positive_area (A B : Rect.t) :
  0 < calculateIoU A B -> 0 < Rect.width A /\ 0 < Rect.height A.
Proof.
  intros Hpos.
  set (xA := Qmax (Rect.x A) (Rect.x B)).
  set (yA := Qmax (Rect.y A) (Rect.y B)).
  set (xB := Qmin (Rect.x A + Rect.width A) (Rect.x B + Rect.width B)).
  set (yB := Qmin (Rect.y A + Rect.height A) (Rect.y B + Rect.height B)).
  destruct (calculateIoU_corners A B xA yA xB yB) as [H _];
    try reflexivity.
  assert (Rect.x A <= xA) by apply Q.le_max_l.
  assert (Rect.y A <= yA) by apply Q.le_max_l.
  assert (xB <= Rect.x A + Rect.width A) by apply Q.le_min_l.
  assert (yB <= Rect.y A + Rect.height A) by apply Q.le_min_l.
  clearbody xA yA xB yB.
  destruct (Qlt_le_dec 0 (xB - xA)) as [Hw | Hw];
    [| rewrite H in Hpos by (left; exact Hw); lra].
  destruct (Qlt_le_dec 0 (yB - yA)) as [Hh | Hh];
    [| rewrite H in Hpos by (right; exact Hh); lra].
  split; lra.
Qed.

(** C9. The overlap ratio of a rectangle of positive width and height with
    itself is 1; it is 0 for two rectangles whose interiors share no point;
    and it is symmetric. *)
Theorem calculateIoU_properties :
  (forall A : Rect.t,
      0 < Rect.width A -> 0 < Rect.height A -> calculateIoU A A == 1)
  /\ (forall A B : Rect.t,
         (forall px py, ~ (interior A px py /\ interior B px py)) ->
         calculateIoU A B == 0)
  /\ (forall A B : Rect.t, calculateIoU A B == calculateIoU B A).
Proof.
  split; [exact calculateIoU_self |].
  split; [exact calculateIoU_disjoint | exact calculateIoU_sym].
Qed.

Lemma calculateIoU_properties_witness :
  let A := Rect.mk 1 2 3 4 in
  let B := Rect.mk 4 2 5 5 in
  (0 < Rect.width A /\ 0 < Rect.height A /\ calculateIoU A A == 1)
  /\ ((forall px py, ~ (interior A px py /\ interior B px py))
      /\ calculateIoU A B == 0).
Proof.
  cbv zeta. split.
  - split; [reflexivity |]. split; [reflexivity |].
    apply (proj1 calculateIoU_properties); reflexivity.
  - assert (H : forall px py, ~ (interior (Rect.mk 1 2 3 4) px py
                                 /\ interior (Rect.mk 4 2 5 5) px py)).
    { unfold interior. cbn. intros px py [[[_ Ha] _] [[Hb _] _]]. lra. }
    split; [exact H |].
    apply (proj1 (proj2 calculateIoU_properties)), H.
Defined.

(** ** Colour ranges *)

Lemma getHsvRange_channels (rgb0 rgb1 rgb2 : Q) (tolerance : Tolerance.t) :
  let r := rgb0 / 255 in
  let g := rgb1 / 255 in
  let b := rgb2 / 255 in
  getHsvRange (rgb0, rgb1, rgb2) tolerance
  = HSVRange.mk
      [ Qmax 0 (cvHue r g b - Tolerance.h tolerance);
        Qmax 0 (cvSaturation r g b - Tolerance.s tolerance);
        Qmax 0 (cvValue r g b - Tolerance.v tolerance);
        0 ]
      [ Qmin 180 (cvHue r g b + Tolerance.h tolerance);
        Qmin 255 (cvSaturation r g b + Tolerance.s tolerance);
        Qmin 255 (cvValue r g b + Tolerance.v tolerance);
        255 ].
Proof. reflexivity. Qed.

(** A quotient strictly between -1 and 1 is rounded to zero. *)
Lemma trunc_small (q : Q) : -1 < q -> q < 1 -> JS.trunc q = 0%Z.
Proof.
  destruct q as [n d]. unfold JS.trunc, Qlt. cbn. intros Hlo Hhi.
  destruct (Z_le_gt_dec 0 n) as [Hn | Hn].
  - apply Z.quot_small. lia.
  - replace n with (- - n)%Z by lia. rewrite Z.quot_opp_l by discriminate.
    rewrite Z.quot_small; [reflexivity | lia].
Qed.

Lemma rem_small (x : Q) : -1 <= x -> x <= 1 -> JS.rem x 6 == x.
Proof.
  intros Hlo Hhi. unfold JS.rem. rewrite trunc_small.
  - ring.
  - assert (E : x / 6 == x * (1 # 6)) by reflexivity. rewrite E. lra.
  - assert (E : x / 6 == x * (1 # 6)) by reflexivity. rewrite E. lra.
Qed.

Lemma ratio_bounds (n d : Q) :
  0 < d -> - d <= n -> n <= d -> -1 <= n / d /\ n / d <= 1.
Proof.
  intros Hd Hlo Hhi. split.
  - apply Qle_shift_div_l; [exact Hd | lra].
  - apply Qle_shift_div_r; [exact Hd | lra].
Qed.

Section Channels.
Variables r g b : Q.

Let max := JS.Math_max3 r g b.
Let min := JS.Math_min3 r g b.

Lemma max3_upper : r <= max /\ g <= max /\ b <= max.
Proof.
  unfold max, JS.Math_max3.
  pose proof (Q.le_max_l (Qmax r g) b). pose proof (Q.le_max_r (Qmax r g) b).
  pose proof (Q.le_max_l r g). pose proof (Q.le_max_r r g).
  repeat split; lra.
Qed.

Lemma min3_lower : min <= r /\ min <= g /\ min <= b.
Proof.
  unfold min, JS.Math_min3.
  pose proof (Q.le_min_l (Qmin r g) b). pose proof (Q.le_min_r (Qmin r g) b).
  pose proof (Q.le_min_l r g). pose proof (Q.le_min_r r g).
  repeat split; lra.
Qed.

Lemma max3_bound (top : Q) : r <= top -> g <= top -> b <= top -> max <= top.
Proof.
  intros. unfold max, JS.Math_max3. repeat apply Q.max_lub; assumption.
Qed.

Lemma min3_bound (bot : Q) : bot <= r -> bot <= g -> bot <= b -> bot <= min.
Proof.
  intros. unfold min, JS.Math_min3. repeat apply Q.min_glb; assumption.
Qed.

(** The hue lies in the half circle of 8-bit HSV. *)
Lemma cvHue_bounds : 0 <= cvHue r g b /\ cvHue r g b <= 180.
Proof.
  unfold cvHue. cbv zeta. fold max min.
  destruct max3_upper as (Mr & Mg & Mb). destruct min3_lower as (mr & mg & mb).
  set (delta := max - min).
  assert (Hhalf : forall h, -360 <= h -> h <= 360 ->
            0 <= (if JS.ltb h 0 then h + 360 else h) / 2
            /\ (if JS.ltb h 0 then h + 360 else h) / 2 <= 180).
  { intros h H0 H1. destruct (JS.ltb h 0) eqn:Hneg.
    - apply ltb_lt in Hneg.
      assert (E : (h + 360) / 2 == (h + 360) * (1 # 2)) by reflexivity.
      rewrite E. lra.
    - apply ltb_ge in Hneg.
      assert (E : h / 2 == h * (1 # 2)) by reflexivity. rewrite E. lra. }
  destruct (JS.eqb delta 0) eqn:Ed; [apply Hhalf; lra |].
  apply eqb_neq in Ed.
  assert (Hd : 0 < delta).
  { destruct (Qlt_le_dec 0 delta) as [H | H]; [exact H |].
    exfalso. apply Ed. unfold delta in *. lra. }
  destruct (JS.eqb max r) eqn:Er.
  - destruct (ratio_bounds (g - b) delta Hd) as [Hlo Hhi];
      [unfold delta; lra | unfold delta; lra |].
    pose proof (rem_small _ Hlo Hhi) as Erem.
    apply Hhalf; rewrite Erem; lra.
  - destruct (JS.eqb max g) eqn:Eg.
    + destruct (ratio_bounds (b - r) delta Hd) as [Hlo Hhi];
        [unfold delta; lra | unfold delta; lra |].
      apply Hhalf; lra.
    + destruct (JS.eqb max b) eqn:Eb; [| apply Hhalf; lra].
      destruct (ratio_bounds (r - g) delta Hd) as [Hlo Hhi];
        [unfold delta; lra | unfold delta; lra |].
      apply Hhalf; lra.
Qed.

Hypothesis (Hr : 0 <= r /\ r <= 1) (Hg : 0 <= g /\ g <= 1) (Hb : 0 <= b /\ b <= 1).

Lemma cvValue_bounds : 0 <= cvValue r g b /\ cvValue r g b <= 255.
Proof.
  unfold cvValue. fold max.
  destruct max3_upper as (Mr & _).
  pose proof (max3_bound 1 (proj2 Hr) (proj2 Hg) (proj2 Hb)).
  lra.
Qed.

Lemma cvSaturation_bounds : 0 <= cvSaturation r g b /\ cvSaturation r g b <= 255.
Proof.
  unfold cvSaturation. cbv zeta. fold max min.
  destruct max3_upper as (Mr & _). destruct min3_lower as (mr & _).
  pose proof (min3_bound 0 (proj1 Hr) (proj1 Hg) (proj1 Hb)) as Hmin.
  destruct (JS.eqb max 0) eqn:E0; [lra |].
  apply eqb_neq in E0.
  assert (Hmax : 0 < max).
  { destruct (Qlt_le_dec 0 max) as [H | H]; [exact H |].
    exfalso. apply E0. lra. }
  assert (Hlo : 0 <= (max - min) / max)
    by (apply Qle_shift_div_l; [exact Hmax | lra]).
  assert (Hhi : (max - min) / max <= 1)
    by (apply Qle_shift_div_r; [exact Hmax | lra]).
  lra.
Qed.
End Channels.

(** The window [max(0, c - t)], [min(top, c + t)] around a channel value. *)
Lemma window_bounds (top c t : Q) :
  0 <= c -> c <= top -> 0 <= t ->
  Qmax 0 (c - t) <= Qmin top (c + t)
  /\ (0 <= Qmax 0 (c - t) /\ Qmax 0 (c - t) <= top)
  /\ (0 <= Qmin top (c + t) /\ Qmin top (c + t) <= top).
Proof.
  intros Hc0 Hc1 Ht. repeat split.
  - apply Q.max_lub; apply Q.min_glb; lra.
  - apply Q.le_max_l.
  - apply Q.max_lub; lra.
  - apply Q.min_glb; lra.
  - apply Q.le_min_l.
Qed.

Lemma channel_unit (c : Q) : 0 <= c -> c <= 255 -> 0 <= c / 255 /\ c / 255 <= 1.
Proof.
  intros H0 H1. assert (E : c / 255 == c * (1 # 255)) by reflexivity.
  rewrite E. lra.
Qed.

(** C8. For channels in 0..255 and a nonnegative tolerance, [getHsvRange]
    returns two arrays of four entries each, hue, saturation, value and a
    fourth entry that is 0 below and 255 above; the hue bounds are ordered
    and lie in [0, 180], and the saturation and value bounds lie in
    [0, 255]. *)
Theorem getHsvRange_bounds (rgb0 rgb1 rgb2 : Q) (tolerance : Tolerance.t) :
  0 <= rgb0 <= 255 -> 0 <= rgb1 <= 255 -> 0 <= rgb2 <= 255 ->
  0 <= Tolerance.h tolerance ->
  0 <= Tolerance.s tolerance ->
  0 <= Tolerance.v tolerance ->
  let range := getHsvRange (rgb0, rgb1, rgb2) tolerance in
  let lower := HSVRange.lower range in
  let upper := HSVRange.upper range in
  (exists lh ls lv uh us uv,
      lower = [lh; ls; lv; 0] /\ upper = [uh; us; uv; 255]
      /\ lh <= uh
      /\ (0 <= lh <= 180 /\ 0 <= uh <= 180)
      /\ (0 <= ls <= 255 /\ 0 <= us <= 255)
      /\ (0 <= lv <= 255 /\ 0 <= uv <= 255))
  /\ channel 0 lower <= channel 0 upper
  /\ (0 <= channel 0 lower <= 180 /\ 0 <= channel 0 upper <= 180)
  /\ (0 <= channel 1 lower <= 255 /\ 0 <= channel 1 upper <= 255)
  /\ (0 <= channel 2 lower <= 255 /\ 0 <= channel 2 upper <= 255).
Proof.
  intros [R0 R1] [G0 G1] [B0 B1] Th Ts Tv. cbv zeta.
  rewrite getHsvRange_channels. cbv zeta. cbn [HSVRange.lower HSVRange.upper channel nth].
  pose proof (channel_unit _ R0 R1) as Hr.
  pose proof (channel_unit _ G0 G1) as Hg.
  pose proof (channel_unit _ B0 B1) as Hb.
  destruct (cvHue_bounds (rgb0 / 255) (rgb1 / 255) (rgb2 / 255)) as [H0 H1].
  destruct (cvSaturation_bounds _ _ _ Hr Hg Hb) as [S0 S1].
  destruct (cvValue_bounds _ _ _ Hr Hg Hb) as [V0 V1].
  destruct (window_bounds 180 _ _ H0 H1 Th) as (Hh & Hhl & Hhu).
  destruct (window_bounds 255 _ _ S0 S1 Ts) as (_ & Hsl & Hsu).
  destruct (window_bounds 255 _ _ V0 V1 Tv) as (_ & Hvl & Hvu).
  split.
  - do 6 eexists. split; [reflexivity | split; [reflexivity | ]].
    repeat split; tauto.
  - repeat split; tauto.
Qed.

Lemma getHsvRange_bounds_witness :
  let range := getHsvRange MENU_DARK (Tolerance.mk 20 50 50) in
  let lower := HSVRange.lower range in
  let upper := HSVRange.upper range in
  (exists lh ls lv uh us uv,
      lower = [lh; ls; lv; 0] /\ upper = [uh; us; uv; 255]
      /\ lh <= uh
      /\ (0 <= lh <= 180 /\ 0 <= uh <= 180)
      /\ (0 <= ls <= 255 /\ 0 <= us <= 255)
      /\ (0 <= lv <= 255 /\ 0 <= uv <= 255))
  /\ channel 0 lower <= channel 0 upper
  /\ (0 <= channel 0 lower <= 180 /\ 0 <= channel 0 upper <= 180)
  /\ (0 <= channel 1 lower <= 255 /\ 0 <= channel 1 upper <= 255)
  /\ (0 <= channel 2 lower <= 255 /\ 0 <= channel 2 upper <= 255).
Proof.
  apply (getHsvRange_bounds 14 4 49 (Tolerance.mk 20 50 50));
    try (split; discriminate); discriminate.
Defined.


(** ** Frame scanner *)

Section Scanner.
Context {Image Mat Contour : Type}.

Lemma triadCheck_true (cv : OpenCV Image Mat Contour) (srcFrame : Mat)
    (profile : VisionProfile.t) (rect : Rect.t) :
  let area := Rect.width rect * Rect.height rect in
  triadCheck srcFrame profile rect = true
  <-> (1 # 100)
      < roiCount srcFrame rect (Bounds.light (VisionProfile.bounds profile)) / area
      /\ (1 # 100)
         < roiCount srcFrame rect (Bounds.white (VisionProfile.bounds profile)) / area.
Proof.
  cbv zeta. unfold triadCheck. rewrite andb_true_iff, !gtb_gt. reflexivity.
Qed.

(** The loop answers [true] exactly when some contour of the vector is
    accepted; the contours after the first accepted one are not visited. *)
Lemma scanLoop_true (cv : OpenCV Image Mat Contour) (srcFrame : Mat)
    (profile : VisionProfile.t) (contours : list Contour) :
  scanLoop srcFrame profile (expectedRect srcFrame profile) contours = true
  <-> exists contour, In contour contours /\ accepted cv srcFrame profile contour.
Proof.
  induction contours as [| c l IH]; cbn [scanLoop].
  - split; [discriminate | intros (c & [] & _)].
  - destruct (JS.ltb (calculateIoU (boundingRect c) (expectedRect srcFrame profile))
                     (3 # 10)) eqn:Hiou.
    + apply ltb_lt in Hiou. rewrite IH. split.
      * intros (c' & Hin & Hacc). exists c'. split; [right; exact Hin | exact Hacc].
      * intros (c' & [<- | Hin] & Hacc); [| exists c'; split; assumption].
        destruct Hacc as (Hlock & _). exfalso. apply (Qlt_not_le _ _ Hiou Hlock).
    + apply ltb_ge in Hiou.
      destruct (triadCheck srcFrame profile (boundingRect c)) eqn:Htriad.
      * split; [intros _ | reflexivity].
        exists c. split; [left; reflexivity |].
        apply triadCheck_true in Htriad. split; [exact Hiou | exact Htriad].
      * rewrite IH. split.
        -- intros (c' & Hin & Hacc). exists c'. split; [right; exact Hin | exact Hacc].
        -- intros (c' & [<- | Hin] & Hacc); [| exists c'; split; assumption].
           destruct Hacc as (_ & Hdens). apply triadCheck_true in Hdens.
           rewrite Hdens in Htriad. discriminate.
Qed.

(** C6. [scanFrame] answers [true] exactly when OpenCV is loaded and some
    contour of the background mask has an overlap ratio of at least 0.3 with
    the projected expected rectangle and, inside its bounding box, accent
    and text densities both above 0.01. *)
Theorem scanFrame_accepts (cv : option (OpenCV Image Mat Contour))
    (srcFrame : Mat) (profile : VisionProfile.t) :
  scanFrame cv srcFrame profile = true
  <-> exists cvi : OpenCV Image Mat Contour,
      cv = Some cvi
      /\ exists contour,
          In contour
             (maskContours srcFrame (Bounds.dark (VisionProfile.bounds profile)))
          /\ accepted cvi srcFrame profile contour.
Proof.
  destruct cv as [cvi |]; cbn [scanFrame].
  - rewrite scanLoop_true. split.
    + intros H. exists cvi. split; [reflexivity | exact H].
    + intros (cvi' & E & H). injection E as <-. exact H.
  - split; [discriminate | intros (cvi & E & _); discriminate].
Qed.

End Scanner.

Lemma scanFrame_accepts_witness : scanFrame (Some fixtureCv) tt fixtureProfile = true.
Proof.
  apply scanFrame_accepts. exists fixtureCv. split; [reflexivity |].
  exists (Rect.mk 100 50 200 100). split; [right; left; reflexivity |].
  unfold accepted. cbv zeta. split; [| split].
  - vm_compute. discriminate.
  - vm_compute. reflexivity.
  - vm_compute. reflexivity.
Defined.


(** ** Reference calibrator *)

Section Calibrator.
Context {Image Mat Contour : Type} (cv : OpenCV Image Mat Contour).

(** The loop over the contours either leaves its state unchanged, no area
    exceeding [maxArea], or ends on the first contour of largest area. *)
Lemma largest_fold (contours : list Contour) :
  forall (maxArea : Q) (bestRect : option Rect.t),
    (Forall (fun c => contourArea c <= maxArea) contours
     /\ fold_left largestStep contours (maxArea, bestRect) = (maxArea, bestRect))
    \/ exists pre best post,
        contours = pre ++ best :: post
        /\ Forall (fun c => contourArea c < contourArea best) pre
        /\ Forall (fun c => contourArea c <= contourArea best) post
        /\ maxArea < contourArea best
        /\ fold_left largestStep contours (maxArea, bestRect)
           = (contourArea best, Some (boundingRect best)).
Proof.
  induction contours as [| c l IH]; intros maxArea bestRect.
  - left. split; [constructor | reflexivity].
  - cbn [fold_left largestStep].
    destruct (JS.gtb (contourArea c) maxArea) eqn:G.
    + apply gtb_gt in G. right.
      destruct (IH (contourArea c) (Some (boundingRect c)))
        as [[Hall E] | (pre & best & post & El & Hpre & Hpost & Hlt & E)].
      * exists [], c, l. repeat split; try assumption. constructor.
      * exists (c :: pre), best, post. subst l.
        repeat split; try assumption; [constructor; assumption | lra].
    + apply gtb_le in G.
      destruct (IH maxArea bestRect)
        as [[Hall E] | (pre & best & post & El & Hpre & Hpost & Hlt & E)].
      * left. split; [constructor; assumption | exact E].
      * right. exists (c :: pre), best, post. subst l.
        repeat split; try assumption. constructor; [lra | assumption].
Qed.

Lemma calibrateReference_unfold (image : Image) :
  let src := imread image in
  let darkBounds := getHsvRange MENU_DARK (Tolerance.mk 20 50 50) in
  let lightBounds := getHsvRange MENU_LIGHT (Tolerance.mk 15 50 50) in
  calibrateReference (Some cv) image
  = match largestContour (maskContours src darkBounds) with
    | (maxArea, Some bestRect) =>
        if JS.gtb maxArea (areaThreshold cv src)
        then inr (VisionProfile.mk
                    (Bounds.mk darkBounds lightBounds whiteBounds)
                    (Spatial.mk
                       (NormalizedBox.mk (Rect.x bestRect / cols src)
                                         (Rect.y bestRect / rows src)
                                         (Rect.width bestRect / cols src)
                                         (Rect.height bestRect / rows src))
                       (Rect.width bestRect / Rect.height bestRect)))
        else inl calibrationFailed
    | (_, None) => inl calibrationFailed
    end.
Proof.
  cbv zeta. unfold calibrateReference.
  destruct (largestContour _) as [maxArea [bestRect |]]; reflexivity.
Qed.

(** C7. With OpenCV loaded and an image of nonnegative width and height,
    [calibrateReference] throws the calibration error exactly when no
    contour of the background mask has an area above 1% of the pixels; when
    some contour has (the image then has pixels), it returns a profile whose
    normalized box is the bounding box of the first contour of largest area,
    divided by the width and height of the image. *)
Theorem calibrateReference_outcome (image : Image) :
  let src := imread image in
  let contours :=
    maskContours src (getHsvRange MENU_DARK (Tolerance.mk 20 50 50)) in
  0 <= cols src -> 0 <= rows src ->
  (calibrateReference (Some cv) image = inl calibrationFailed
   <-> ~ exists c, In c contours /\ areaThreshold cv src < contourArea c)
  /\ (0 < cols src -> 0 < rows src ->
      (exists c, In c contours /\ areaThreshold cv src < contourArea c) ->
      exists pre best post profile,
        contours = pre ++ best :: post
        /\ Forall (fun c => contourArea c < contourArea best) pre
        /\ Forall (fun c => contourArea c <= contourArea best) post
        /\ calibrateReference (Some cv) image = inr profile
        /\ Spatial.normalizedBox (VisionProfile.spatial profile)
           = normalized cv src best).
Proof.
  cbv zeta. intros Hcols Hrows.
  pose proof (Qmult_le_0_compat _ _ Hcols Hrows) as Htotal.
  assert (Hth : 0 <= areaThreshold cv (imread image))
    by (unfold areaThreshold; lra).
  rewrite calibrateReference_unfold. cbv zeta. unfold largestContour.
  set (contours := maskContours (imread image) _).
  destruct (largest_fold contours 0 None)
    as [[Hall E] | (pre & best & post & El & Hpre & Hpost & Hlt & E)];
    rewrite E; clear E.
  - (* every area is at most 0: [bestRect] stays [null] *)
    rewrite Forall_forall in Hall.
    assert (Hno : ~ exists c, In c contours
                              /\ areaThreshold cv (imread image) < contourArea c).
    { intros (c & Hin & Hc). specialize (Hall c Hin). lra. }
    split; [split; [intros _; exact Hno | reflexivity] |].
    intros _ _ H. contradiction.
  - assert (Hmax : forall c, In c contours -> contourArea c <= contourArea best).
    { rewrite El. intros c Hin. apply in_app_or in Hin.
      rewrite Forall_forall in Hpre, Hpost.
      destruct Hin as [Hin | [<- | Hin]];
        [apply Qlt_le_weak, Hpre, Hin | apply Qle_refl | apply Hpost, Hin]. }
    assert (Hbest : In best contours)
      by (rewrite El; apply in_or_app; right; left; reflexivity).
    destruct (JS.gtb (contourArea best) (areaThreshold cv (imread image))) eqn:G.
    + apply gtb_gt in G. split.
      * split; [discriminate |]. intros Hno. exfalso. apply Hno.
        exists best. split; assumption.
      * intros _ _ _. exists pre, best, post. eexists.
        repeat split; try eassumption; reflexivity.
    + apply gtb_le in G. split.
      * split; [| reflexivity]. intros _ (c & Hin & Hc).
        specialize (Hmax c Hin). lra.
      * intros _ _ (c & Hin & Hc). specialize (Hmax c Hin). lra.
Qed.

End Calibrator.

Lemma calibrateReference_outcome_witness :
  0 <= 640 /\ 0 <= 360
  /\ (exists c, In c [Rect.mk 0 0 10 10; Rect.mk 100 50 200 100]
                /\ areaThreshold fixtureCv tt < contourArea (OpenCV := fixtureCv) c)
  /\ exists profile,
      calibrateReference (Some fixtureCv) tt = inr profile
      /\ Spatial.normalizedBox (VisionProfile.spatial profile)
         = NormalizedBox.mk (100 / 640) (50 / 360) (200 / 640) (100 / 360).
Proof.
  assert (H0 : 0 <= 640) by discriminate.
  assert (H1 : 0 <= 360) by discriminate.
  assert (H2 : exists c, In c [Rect.mk 0 0 10 10; Rect.mk 100 50 200 100]
                         /\ areaThreshold fixtureCv tt < contourArea (OpenCV := fixtureCv) c).
  { exists (Rect.mk 100 50 200 100). split; [right; left; reflexivity |].
    vm_compute. reflexivity. }
  split; [exact H0 |]. split; [exact H1 |]. split; [exact H2 |].
  destruct (proj2 (calibrateReference_outcome fixtureCv tt H0 H1)
              eq_refl eq_refl H2)
    as (pre & best & post & profile & El & Hpre & Hpost & E & Hbox).
  exists profile. split; [exact E |].
  rewrite Hbox. clear E Hbox H2.
  destruct pre as [| c0 [| c1 pre]]; cbn in El.
  - injection El as <- <-. apply Forall_inv in Hpost.
    exfalso. vm_compute in Hpost. apply Hpost. reflexivity.
  - injection El as _ <- _. reflexivity.
  - injection El as _ _ El. destruct pre; discriminate.
Defined.

(** ** The examples with binary64 arithmetic *)

(** The examples of the inverter and of the clusterer give the same ranges
    when run with the rounding of the source. *)
Lemma binary64_examples :
  Binary64.getKeepRanges [] 10 = [Binary64.Range.mk 0 10]
  /\ Binary64.getKeepRanges [Binary64.DetectionRange.mk 2 4 1] 10
     = [Binary64.Range.mk 0 2; Binary64.Range.mk 4 10]
  /\ Binary64.processDetections [] = []
  /\ Binary64.processDetections [2.5%float] = [Binary64.DetectionRange.mk 2.5 2.5 1]
  /\ Binary64.processDetections [1.0; 1.3; 1.6; 5.0]%float
     = [Binary64.DetectionRange.mk 1.0 1.6 1.0; Binary64.DetectionRange.mk 5.0 5.0 1.0].
Proof. repeat split; vm_compute; reflexivity. Qed.

(** So do the boundary cases: the range up to a detection that starts
    exactly at 0.1 is not emitted, and nothing is kept for a duration that is
    zero or not a number. *)
Lemma binary64_boundary_cases :
  Binary64.getKeepRanges [Binary64.DetectionRange.mk 0.1 1 1] 1 = []
  /\ Binary64.getKeepRanges [Binary64.DetectionRange.mk 0.1 5 1] 10
     = [Binary64.Range.mk 5 10]
  /\ Binary64.getKeepRanges [] 0 = []
  /\ Binary64.getKeepRanges [Binary64.DetectionRange.mk 2 4 1] PrimFloat.nan = [].
Proof. repeat split; vm_compute; reflexivity. Qed.

(** The rounding [rnd64] gives the numbers of binary64 arithmetic: on the
    literals, and on the sums and differences of some numbers of a timeline,
    small and large. *)
Lemma rnd64_agrees_binary64 :
  Forall (fun p : float * float =>
            toQ (fst p + snd p)%float == Rounded.add rnd64 (toQ (fst p)) (toQ (snd p))
            /\ toQ (fst p - snd p)%float
               == Rounded.sub rnd64 (toQ (fst p)) (toQ (snd p)))
         [(2, 0.1); (1.1, 0.1); (0.6, 0.1); (1, 0.6); (0.1, 0.2); (0.3, 0.1);
          (3.3, 1.1); (3600, 0.1); (123456.789, 0.001); (0.1, 0.7);
          (1e-300, 1e-310); (5e-324, 5e-324); (9007199254740992, 1)]%float
  /\ toQ 0.1 == Rounded.minSegment rnd64
  /\ toQ 0.5 == Rounded.TOLERANCE rnd64
  /\ toQ 0.6 == sixTenths64
  /\ toQ 1.1 == elevenTenths64.
Proof.
  repeat first [apply Forall_cons | apply Forall_nil | split];
    vm_compute; reflexivity.
Qed.

(** An input on which the rounding shows: the detection {0.6, 1} against
    the duration 1.1.  With the rounding of the source, in both embeddings,
    only the range from 0 to 0.6 is kept: [1.1 - 0.1] is rounded to 1, so
    that the gap from 1 to 1.1 is left out although it is longer than a
    tenth.  Without rounding that gap is kept.  A detection that starts
    at 0.1 leaves nothing to keep before it, with rounding as without. *)
Lemma rounding_example :
  Binary64.getKeepRanges [Binary64.DetectionRange.mk 0.6 1 1] 1.1
  = [Binary64.Range.mk 0 0.6]
  /\ Rounded.getKeepRanges rnd64 [DetectionRange.mk sixTenths64 1 1] elevenTenths64
     = [Range.mk 0 sixTenths64]
  /\ Rounded.sub rnd64 elevenTenths64 (Rounded.minSegment rnd64) == 1
  /\ leftOut rnd64 elevenTenths64 1 elevenTenths64
  /\ 1 # 10 < elevenTenths64 - 1
  /\ getKeepRanges [DetectionRange.mk sixTenths64 1 1] elevenTenths64
     = [Range.mk 0 sixTenths64; Range.mk 1 elevenTenths64]
  /\ Rounded.getKeepRanges rnd64 [DetectionRange.mk (Rounded.minSegment rnd64) 1 1] 1
     = [].
Proof.
  split; [vm_compute; reflexivity |].
  split; [vm_compute; reflexivity |].
  split; [vm_compute; reflexivity |].
  split; [right; split; [reflexivity | vm_compute; intros E; discriminate E] |].
  split; [reflexivity |].
  split; vm_compute; reflexivity.
Qed.

(** * Further properties *)

(** ** More on the stable sort *)

Section SortOrder.
Context {A : Type} (compare : A -> A -> Q).

Lemma insert_perm (x : A) (l : list A) : Permutation (JS.insert compare x l) (x :: l).
Proof.
  induction l as [| y l IH]; simpl.
  - reflexivity.
  - destruct (Qle_bool (compare x y) 0).
    + reflexivity.
    + rewrite IH. apply perm_swap.
Qed.

Lemma sort_perm (l : list A) : Permutation (JS.sort compare l) l.
Proof.
  unfold JS.sort. induction l as [| x l IH]; simpl.
  - reflexivity.
  - rewrite insert_perm, IH. reflexivity.
Qed.

Lemma sort_In (x : A) (l : list A) : In x (JS.sort compare l) <-> In x l.
Proof.
  split; apply Permutation_in; [| symmetry]; apply sort_perm.
Qed.
End SortOrder.

(** With a comparator that subtracts keys the result is in key order. *)
Section SortByKey.
Context {A : Type} (key : A -> Q).

Lemma insert_sorted_key (x : A) (l : list A) :
  StronglySorted (fun a b => key a <= key b) l ->
  StronglySorted (fun a b => key a <= key b)
                 (JS.insert (fun a b => key a - key b) x l).
Proof.
  induction 1 as [| y l Hl IH Hy]; simpl.
  - repeat constructor.
  - destruct (Qle_bool (key x - key y) 0) eqn:C.
    + apply Qle_bool_iff in C.
      constructor; [constructor; assumption |].
      constructor; [lra |].
      revert Hy. apply Forall_impl. intros z Hz. lra.
    + assert (C' : key y <= key x).
      { destruct (Qlt_le_dec (key x) (key y)) as [H | H]; [| exact H].
        exfalso. assert (H' : key x - key y <= 0) by lra.
        apply Qle_bool_iff in H'. rewrite H' in C. discriminate. }
      constructor; [exact IH |].
      eapply Permutation_Forall.
      * symmetry. apply insert_perm.
      * constructor; assumption.
Qed.

Lemma sort_sorted_key (l : list A) :
  StronglySorted (fun a b => key a <= key b)
                 (JS.sort (fun a b => key a - key b) l).
Proof.
  unfold JS.sort. induction l as [| x l IH]; simpl.
  - constructor.
  - apply insert_sorted_key, IH.
Qed.
End SortByKey.

(** ** The clusters of [processDetections] *)

Lemma clusterStep_fold (rest : list Q) :
  forall (ranges : list DetectionRange.t) (start prev : Q),
    (let '(ranges', start', prev') :=
       fold_left clusterStep rest (ranges, start, prev) in
     ranges' ++ [DetectionRange.mk start' prev' 1])
    = ranges ++ clusterFrom start prev rest.
Proof.
  induction rest as [| curr rest IH]; intros ranges start prev.
  - reflexivity.
  - cbn [fold_left clusterStep clusterFrom].
    destruct (JS.gtb (curr - prev) TOLERANCE).
    + rewrite IH, <- app_assoc. reflexivity.
    + apply IH.
Qed.

Lemma processDetections_clusterFrom (timestamps : list Q) :
  processDetections timestamps
  = match JS.sort (fun a b => a - b) timestamps with
    | [] => []
    | first :: rest => clusterFrom first first rest
    end.
Proof.
  unfold processDetections. destruct timestamps as [| t ts]; [reflexivity |].
  cbn [List.length Nat.eqb].
  destruct (JS.sort (fun a b => a - b) (t :: ts)) as [| first rest] eqn:E.
  - exfalso. apply (Permutation_nil_cons (l := ts) (x := t)).
    rewrite <- E. apply sort_perm.
  - cbn [hd tl]. apply (clusterStep_fold rest [] first first).
Qed.

(** The clusters closed from the state [(start, prev)] on, when the
    timestamps still to come are in ascending order from [prev]. *)
Lemma clusterFrom_spec (rest : list Q) :
  forall start prev : Q,
    start <= prev ->
    StronglySorted Qle (prev :: rest) ->
    exists e tail,
      clusterFrom start prev rest = DetectionRange.mk start e 1 :: tail
      /\ prev <= e
      /\ In e (prev :: rest)
      /\ Forall (fun r => e + TOLERANCE < DetectionRange.start r
                          /\ DetectionRange.start r <= DetectionRange.end_ r
                          /\ DetectionRange.confidence r = 1
                          /\ In (DetectionRange.start r) rest
                          /\ In (DetectionRange.end_ r) rest) tail
      /\ ForallOrdPairs apart tail
      /\ (forall t, In t (prev :: rest) ->
            exists r, In r (DetectionRange.mk start e 1 :: tail)
                      /\ DetectionRange.start r <= t
                      /\ t <= DetectionRange.end_ r).
Proof.
  induction rest as [| curr rest IH]; intros start prev Hsp Hsorted.
  - exists prev, []. cbn [clusterFrom].
    repeat split; try constructor; try apply Qle_refl; auto.
    intros t [<- | []]. exists (DetectionRange.mk start prev 1).
    repeat split; [left; reflexivity | exact Hsp | apply Qle_refl].
  - inversion Hsorted as [| ? ? Hsorted' Hprev]; subst.
    pose proof (Forall_inv Hprev) as Hpc.
    cbn [clusterFrom].
    destruct (JS.gtb (curr - prev) TOLERANCE) eqn:G.
    + apply gtb_gt in G.
      destruct (IH curr curr (Qle_refl _) Hsorted')
        as (e & tail & E & Hce & Hine & Htail & Hord & Hcov).
      exists prev, (DetectionRange.mk curr e 1 :: tail). rewrite E.
      split; [reflexivity |]. split; [apply Qle_refl |].
      split; [left; reflexivity |].
      split; [| split].
      * constructor.
        -- cbn. repeat split; [lra | exact Hce | left; reflexivity | exact Hine].
        -- revert Htail. apply Forall_impl.
           intros r (H1 & H2 & H3 & H4 & H5).
           repeat split; try assumption; try (right; assumption). lra.
      * constructor; [| exact Hord].
        revert Htail. apply Forall_impl. intros r (H1 & _). exact H1.
      * intros t [<- | Ht].
        -- exists (DetectionRange.mk start prev 1).
           repeat split; [left; reflexivity | exact Hsp | apply Qle_refl].
        -- destruct (Hcov t Ht) as (r & Hr & Hb).
           exists r. split; [right; exact Hr | exact Hb].
    + apply gtb_le in G.
      destruct (IH start curr ltac:(lra) Hsorted')
        as (e & tail & E & Hce & Hine & Htail & Hord & Hcov).
      exists e, tail. rewrite E.
      split; [reflexivity |]. split; [lra |].
      split; [right; exact Hine |].
      split; [| split; [exact Hord |]].
      * revert Htail. apply Forall_impl.
        intros r (H1 & H2 & H3 & H4 & H5).
        repeat split; try assumption; right; assumption.
      * intros t [<- | Ht]; [| apply Hcov, Ht].
        exists (DetectionRange.mk start e 1).
        repeat split; [left; reflexivity | exact Hsp | cbn; lra].
Qed.

(** The output of [processDetections], with what is known of each range. *)
Lemma processDetections_spec (timestamps : list Q) :
  Forall (fun r => DetectionRange.start r <= DetectionRange.end_ r
                   /\ DetectionRange.confidence r = 1
                   /\ In (DetectionRange.start r) timestamps
                   /\ In (DetectionRange.end_ r) timestamps)
         (processDetections timestamps)
  /\ ForallOrdPairs apart (processDetections timestamps)
  /\ (forall t, In t timestamps ->
        exists r, In r (processDetections timestamps)
                  /\ DetectionRange.start r <= t /\ t <= DetectionRange.end_ r).
Proof.
  rewrite processDetections_clusterFrom.
  pose proof (sort_sorted_key (fun t : Q => t) timestamps) as Hsorted.
  assert (HIn : forall t, In t (JS.sort (fun a b => a - b) timestamps)
                          <-> In t timestamps) by (intros t; apply sort_In).
  destruct (JS.sort (fun a b => a - b) timestamps) as [| first rest].
  - split; [constructor |]. split; [constructor |].
    intros t Ht. apply (proj2 (HIn t)) in Ht. destruct Ht.
  - destruct (clusterFrom_spec rest first first (Qle_refl _) Hsorted)
      as (e & tail & E & Hfe & Hine & Htail & Hord & Hcov).
    rewrite E. split; [| split].
    + constructor.
      * cbn. repeat split; try assumption; apply HIn; [left; reflexivity | exact Hine].
      * revert Htail. apply Forall_impl. intros r (H1 & H2 & H3 & H4 & H5).
        repeat split; try assumption; apply HIn; right; assumption.
    + constructor; [| exact Hord].
      revert Htail. apply Forall_impl. intros r (H1 & _). exact H1.
    + intros t Ht. apply Hcov, HIn, Ht.
Qed.

(** X1. Every range built by [processDetections] has
    [start <= end] and confidence 1, and any two of them, in output order,
    are more than the tolerance apart: the ranges are sorted and disjoint. *)
Theorem processDetections_separated (timestamps : list Q) :
  Forall (fun r => DetectionRange.start r <= DetectionRange.end_ r
                   /\ DetectionRange.confidence r = 1)
         (processDetections timestamps)
  /\ ForallOrdPairs apart (processDetections timestamps).
Proof.
  destruct (processDetections_spec timestamps) as (Hall & Hord & _).
  split; [| exact Hord].
  revert Hall. apply Forall_impl. intros r (H1 & H2 & _). split; assumption.
Qed.

(** X2. Every timestamp given to [processDetections] lies in one
    of the ranges, both ends of every range are timestamps that were given,
    and there is no range exactly when there is no timestamp. *)
Theorem processDetections_covers (timestamps : list Q) :
  (forall t, In t timestamps ->
     exists r, In r (processDetections timestamps)
               /\ DetectionRange.start r <= t /\ t <= DetectionRange.end_ r)
  /\ (forall r, In r (processDetections timestamps) ->
        In (DetectionRange.start r) timestamps
        /\ In (DetectionRange.end_ r) timestamps)
  /\ (processDetections timestamps = [] <-> timestamps = []).
Proof.
  destruct (processDetections_spec timestamps) as (Hall & _ & Hcov).
  split; [exact Hcov |]. split.
  - rewrite Forall_forall in Hall. intros r Hr.
    destruct (Hall r Hr) as (_ & _ & H3 & H4). split; assumption.
  - split.
    + intros E. destruct timestamps as [| t ts]; [reflexivity |].
      destruct (Hcov t (or_introl eq_refl)) as (r & Hr & _).
      rewrite E in Hr. destruct Hr.
    + intros ->. reflexivity.
Qed.

Lemma clusterFrom_dense (S : Q -> Prop) (rest : list Q) :
  forall start prev : Q,
    (forall t, In t (prev :: rest) -> S t) ->
    (forall x, start <= x -> x <= prev ->
       exists t, S t /\ x <= t /\ t <= x + TOLERANCE) ->
    Forall (fun r => forall x,
                DetectionRange.start r <= x -> x <= DetectionRange.end_ r ->
                exists t, S t /\ x <= t /\ t <= x + TOLERANCE)
           (clusterFrom start prev rest).
Proof.
  induction rest as [| curr rest IH]; intros start prev HS Hopen;
    cbn [clusterFrom].
  - constructor; [exact Hopen | constructor].
  - assert (HS' : forall t, In t (curr :: rest) -> S t)
      by (intros t Ht; apply HS; right; exact Ht).
    destruct (JS.gtb (curr - prev) TOLERANCE) eqn:G.
    + constructor; [exact Hopen |].
      apply IH; [exact HS' |].
      intros x H1 H2. exists curr.
      split; [apply HS'; left; reflexivity |]. unfold TOLERANCE. lra.
    + apply gtb_le in G. apply IH; [exact HS' |].
      intros x H1 H2.
      destruct (Qlt_le_dec prev x) as [Hx | Hx]; [| apply Hopen; assumption].
      exists curr. split; [apply HS'; left; reflexivity |].
      unfold TOLERANCE in *. lra.
Qed.

(** X3. A range of [processDetections] does not bridge a gap wider
    than the tolerance: from every instant of the range, a timestamp that
    was given follows within the tolerance. *)
Theorem processDetections_dense (timestamps : list Q) (r : DetectionRange.t) (x : Q) :
  In r (processDetections timestamps) ->
  DetectionRange.start r <= x -> x <= DetectionRange.end_ r ->
  exists t, In t timestamps /\ x <= t /\ t <= x + TOLERANCE.
Proof.
  rewrite processDetections_clusterFrom.
  assert (HIn : forall t, In t (JS.sort (fun a b => a - b) timestamps)
                          -> In t timestamps) by (intros t; apply sort_In).
  destruct (JS.sort (fun a b => a - b) timestamps) as [| first rest];
    [intros [] |].
  intros Hr. revert x.
  pose proof (clusterFrom_dense (fun t => In t timestamps) rest first first HIn)
    as H.
  rewrite Forall_forall in H. apply H; [| exact Hr].
  intros x H1 H2. exists first.
  split; [apply HIn; left; reflexivity |]. unfold TOLERANCE. lra.
Qed.

Lemma processDetections_dense_witness :
  let timestamps := [1; 13 # 10; 16 # 10; 5] in
  let r := DetectionRange.mk 1 (16 # 10) 1 in
  In r (processDetections timestamps)
  /\ DetectionRange.start r <= (14 # 10) /\ (14 # 10) <= DetectionRange.end_ r
  /\ exists t, In t timestamps /\ (14 # 10) <= t /\ t <= (14 # 10) + TOLERANCE.
Proof.
  cbv zeta.
  assert (H1 : In (DetectionRange.mk 1 (16 # 10) 1)
                  (processDetections [1; 13 # 10; 16 # 10; 5]))
    by (left; reflexivity).
  assert (H2 : DetectionRange.start (DetectionRange.mk 1 (16 # 10) 1) <= 14 # 10)
    by discriminate.
  assert (H3 : (14 # 10) <= DetectionRange.end_ (DetectionRange.mk 1 (16 # 10) 1))
    by discriminate.
  split; [exact H1 |]. split; [exact H2 |]. split; [exact H3 |].
  exact (processDetections_dense _ _ _ H1 H2 H3).
Defined.

(** ** What the inverter keeps *)

(** The ranges kept by a sweep over detections in start order begin at or
    after the cursor and overlap none of the detections. *)
Lemma keepFrom_avoids (D : Q) (l : list DetectionRange.t) :
  forall c : Q,
    StronglySorted
      (fun d1 d2 => DetectionRange.start d1 <= DetectionRange.start d2) l ->
    forall k, In k (keepFrom c l D) ->
      c <= Range.start k
      /\ forall d, In d l ->
           DetectionRange.end_ d <= Range.start k
           \/ Range.end_ k <= DetectionRange.start d.
Proof.
  induction l as [| d l IH]; intros c Hsorted k Hk.
  - unfold keepFrom in Hk. cbn [fold_left] in Hk.
    destruct (JS.ltb c (D - minSegment)); [| destruct Hk].
    destruct Hk as [<- | []]. split; [apply Qle_refl | intros d' []].
  - inversion Hsorted as [| ? ? Hsorted' Hd]; subst.
    rewrite Forall_forall in Hd.
    rewrite keepFrom_cons in Hk. apply in_app_or in Hk.
    destruct Hk as [Hk | Hk].
    + destruct (JS.gtb (DetectionRange.start d) (c + minSegment));
        [| destruct Hk].
      destruct Hk as [<- | []]. cbn. split; [apply Qle_refl |].
      intros d' [<- | Hd']; right; [apply Qle_refl | apply Hd, Hd'].
    + destruct (IH _ Hsorted' k Hk) as [Hc Hfree].
      pose proof (Q.le_max_l c (DetectionRange.end_ d)) as M1.
      pose proof (Q.le_max_r c (DetectionRange.end_ d)) as M2.
      unfold JS.Math_max in Hc.
      split; [lra |].
      intros d' [<- | Hd']; [left; lra | apply Hfree, Hd'].
Qed.

Lemma getKeepRanges_avoids
    (detections : list DetectionRange.t) (D : Q) (k : Range.t) (d : DetectionRange.t) :
  In k (getKeepRanges detections D) -> In d detections ->
  DetectionRange.end_ d <= Range.start k \/ Range.end_ k <= DetectionRange.start d.
Proof.
  intros Hk Hd.
  destruct (Qeq_dec D 0) as [HD | HD].
  - unfold getKeepRanges in Hk.
    replace (JS.not D) with true in Hk by (symmetry; apply eqb_eq, HD).
    destruct Hk.
  - rewrite getKeepRanges_keepFrom in Hk;
      [| exact HD | intros ->; destruct Hd].
    apply (keepFrom_avoids D _ 0 (sort_sorted_key DetectionRange.start detections) k Hk).
    apply sort_In, Hd.
Qed.

(** X4. No range kept by [getKeepRanges] overlaps a detection,
    whatever the detections and their order are: each detection ends at or
    before the start of the range, or starts at or after its end. *)
Theorem getKeepRanges_avoids_detections
    (detections : list DetectionRange.t) (D : Q) (k : Range.t) (d : DetectionRange.t) :
  In k (getKeepRanges detections D) -> In d detections ->
  DetectionRange.end_ d <= Range.start k \/ Range.end_ k <= DetectionRange.start d.
Proof.
  intros Hk Hd.
  destruct (Qeq_dec D 0) as [HD | HD].
  - unfold getKeepRanges in Hk.
    replace (JS.not D) with true in Hk by (symmetry; apply eqb_eq, HD).
    destruct Hk.
  - rewrite getKeepRanges_keepFrom in Hk;
      [| exact HD | intros ->; destruct Hd].
    destruct (keepFrom_avoids D _ 0
                (sort_sorted_key DetectionRange.start detections) k Hk)
      as [_ Hfree].
    apply Hfree, sort_In, Hd.
Qed.

Lemma getKeepRanges_avoids_detections_witness :
  let detections := [DetectionRange.mk 6 7 1; DetectionRange.mk 2 4 1] in
  let k := Range.mk 4 6 in
  let d := DetectionRange.mk 2 4 1 in
  In k (getKeepRanges detections 10) /\ In d detections
  /\ (DetectionRange.end_ d <= Range.start k
      \/ Range.end_ k <= DetectionRange.start d).
Proof.
  cbv zeta.
  assert (H1 : In (Range.mk 4 6)
                  (getKeepRanges [DetectionRange.mk 6 7 1; DetectionRange.mk 2 4 1] 10))
    by (right; left; reflexivity).
  assert (H2 : In (DetectionRange.mk 2 4 1)
                  [DetectionRange.mk 6 7 1; DetectionRange.mk 2 4 1])
    by (right; left; reflexivity).
  split; [exact H1 |]. split; [exact H2 |].
  exact (getKeepRanges_avoids_detections _ _ _ _ H1 H2).
Defined.

(** The ranges kept by a sweep from a cursor [c >= 0] start at or after 0,
    are longer than [minSegment], and end by [D] when the detections start
    by [D]. *)
Lemma keepFrom_within (D : Q) (l : list DetectionRange.t) :
  forall c : Q,
    0 <= c ->
    Forall (fun d => DetectionRange.start d <= D) l ->
    Forall (fun k => 0 <= Range.start k
                     /\ Range.start k + minSegment < Range.end_ k
                     /\ Range.end_ k <= D) (keepFrom c l D).
Proof.
  induction l as [| d l IH]; intros c Hc Hl.
  - unfold keepFrom. cbn [fold_left].
    destruct (JS.ltb c (D - minSegment)) eqn:G; [| constructor].
    apply ltb_lt in G. constructor; [| constructor].
    cbn. repeat split; [exact Hc | lra | apply Qle_refl].
  - inversion Hl as [| ? ? Hd Hl']; subst.
    rewrite keepFrom_cons. apply Forall_app. split.
    + destruct (JS.gtb (DetectionRange.start d) (c + minSegment)) eqn:G;
        [| constructor].
      apply gtb_gt in G. constructor; [| constructor].
      cbn. repeat split; assumption.
    + apply IH; [| exact Hl'].
      apply (Qle_trans _ _ _ Hc), Q.le_max_l.
Qed.

(** X5. For a positive duration and detections that start within
    the video, every range kept by [getKeepRanges] lies within
    [0, duration] and has its start before its end. *)
Theorem getKeepRanges_within_video (detections : list DetectionRange.t) (D : Q) :
  0 < D ->
  Forall (fun d => DetectionRange.start d <= D) detections ->
  Forall (fun k => 0 <= Range.start k
                   /\ Range.start k < Range.end_ k
                   /\ Range.end_ k <= D) (getKeepRanges detections D).
Proof.
  intros HD Hl.
  assert (HD0 : ~ D == 0) by (intros E; lra).
  destruct detections as [| d l].
  - rewrite (getKeepRanges_nil D HD0). constructor; [| constructor].
    cbn. repeat split; [apply Qle_refl | exact HD | apply Qle_refl].
  - rewrite getKeepRanges_keepFrom; [| exact HD0 | discriminate].
    pose proof (keepFrom_within D (JS.sort byStart (d :: l)) 0 (Qle_refl 0)
                  (sort_Forall _ _ _ Hl)) as H.
    revert H. apply Forall_impl. intros k (H1 & H2 & H3).
    unfold minSegment in H2. repeat split; [exact H1 | lra | exact H3].
Qed.

Lemma getKeepRanges_within_video_witness :
  let detections := [DetectionRange.mk 6 7 1; DetectionRange.mk 2 4 1] in
  0 < 10
  /\ Forall (fun d => DetectionRange.start d <= 10) detections
  /\ Forall (fun k => 0 <= Range.start k
                      /\ Range.start k < Range.end_ k
                      /\ Range.end_ k <= 10) (getKeepRanges detections 10).
Proof.
  cbv zeta.
  assert (H : Forall (fun d => DetectionRange.start d <= 10)
                [DetectionRange.mk 6 7 1; DetectionRange.mk 2 4 1])
    by (repeat constructor; discriminate).
  split; [reflexivity |]. split; [exact H |].
  apply getKeepRanges_within_video; [reflexivity | exact H].
Defined.

(** ** Clustering, then inverting *)

(** X6. When the detections are the ranges clustered from a list of
    timestamps, no timestamp of the list lies strictly inside a range that
    [getKeepRanges] keeps. *)
Theorem kept_ranges_exclude_timestamps (timestamps : list Q) (D : Q) (k : Range.t) (t : Q) :
  In k (getKeepRanges (processDetections timestamps) D) ->
  In t timestamps ->
  t <= Range.start k \/ Range.end_ k <= t.
Proof.
  intros Hk Ht.
  destruct (processDetections_spec timestamps) as (_ & _ & Hcov).
  destruct (Hcov t Ht) as (r & Hr & H1 & H2).
  destruct (getKeepRanges_avoids _ _ _ _ Hk Hr) as [H | H]; [left | right]; lra.
Qed.

Lemma kept_ranges_exclude_timestamps_witness :
  let timestamps := [(5 # 2); 3; (61 # 10); 6] in
  In (Range.mk 3 6) (getKeepRanges (processDetections timestamps) 10)
  /\ In (61 # 10) timestamps
  /\ ((61 # 10) <= Range.start (Range.mk 3 6)
      \/ Range.end_ (Range.mk 3 6) <= (61 # 10)).
Proof.
  cbv zeta.
  assert (H1 : In (Range.mk 3 6)
                  (getKeepRanges (processDetections [(5 # 2); 3; (61 # 10); 6]) 10))
    by (right; left; reflexivity).
  assert (H2 : In (61 # 10) [(5 # 2); 3; (61 # 10); 6])
    by (right; right; left; reflexivity).
  split; [exact H1 |]. split; [exact H2 |].
  exact (kept_ranges_exclude_timestamps _ _ _ _ H1 H2).
Defined.


(** A comparator that agrees with the order of the keys on the elements of
    the list sorts it by key. *)
Section SortFaithful.
Context {A : Type} (compare : A -> A -> Q) (key : A -> Q).


End SortFaithful.

Section RoundedClusters.
Variable rnd : Q -> Q.





End RoundedClusters.



Lemma processDetections_separated_witness :
  Forall (fun r => DetectionRange.start r <= DetectionRange.end_ r
                   /\ DetectionRange.confidence r = 1)
         (processDetections [5; 1; 13 # 10])
  /\ ForallOrdPairs apart (processDetections [5; 1; 13 # 10]).
Proof. exact (processDetections_separated [5; 1; 13 # 10]). Defined.

Lemma processDetections_covers_witness :
  In (13 # 10) [5; 1; 13 # 10]
  /\ exists r, In r (processDetections [5; 1; 13 # 10])
               /\ DetectionRange.start r <= (13 # 10)
               /\ (13 # 10) <= DetectionRange.end_ r.
Proof.
  assert (H : In (13 # 10) [5; 1; 13 # 10]) by (right; right; left; reflexivity).
  split; [exact H |].
  exact (proj1 (processDetections_covers [5; 1; 13 # 10]) _ H).
Defined.

(** ** More on the overlap ratio *)

(** The overlap ratio when the intersection has a positive width and height
    [iw], [ih]: the corners, the bounds of the intersection by both
    rectangles, and the value. *)
Lemma calculateIoU_cases (A B : Rect.t) :
  calculateIoU A B == 0
  \/ exists iw ih : Q,
      0 < iw /\ 0 < ih
      /\ (exists xA, Rect.x A <= xA /\ Rect.x B <= xA
                     /\ xA + iw <= Rect.x A + Rect.width A
                     /\ xA + iw <= Rect.x B + Rect.width B)
      /\ (exists yA, Rect.y A <= yA /\ Rect.y B <= yA
                     /\ yA + ih <= Rect.y A + Rect.height A
                     /\ yA + ih <= Rect.y B + Rect.height B)
      /\ 0 < Rect.width A * Rect.height A + Rect.width B * Rect.height B - iw * ih
      /\ calculateIoU A B
         == iw * ih / (Rect.width A * Rect.height A
                       + Rect.width B * Rect.height B - iw * ih).
Proof.
  set (xA := Qmax (Rect.x A) (Rect.x B)).
  set (yA := Qmax (Rect.y A) (Rect.y B)).
  set (xB := Qmin (Rect.x A + Rect.width A) (Rect.x B + Rect.width B)).
  set (yB := Qmin (Rect.y A + Rect.height A) (Rect.y B + Rect.height B)).
  destruct (calculateIoU_corners A B xA yA xB yB) as [H0 H1];
    try reflexivity.
  assert (Rect.x A <= xA) by apply Q.le_max_l.
  assert (Rect.x B <= xA) by apply Q.le_max_r.
  assert (Rect.y A <= yA) by apply Q.le_max_l.
  assert (Rect.y B <= yA) by apply Q.le_max_r.
  assert (xB <= Rect.x A + Rect.width A) by apply Q.le_min_l.
  assert (xB <= Rect.x B + Rect.width B) by apply Q.le_min_r.
  assert (yB <= Rect.y A + Rect.height A) by apply Q.le_min_l.
  assert (yB <= Rect.y B + Rect.height B) by apply Q.le_min_r.
  clearbody xA yA xB yB.
  destruct (Qlt_le_dec 0 (xB - xA)) as [Hw | Hw]; [| left; apply H0; left; exact Hw].
  destruct (Qlt_le_dec 0 (yB - yA)) as [Hh | Hh]; [| left; apply H0; right; exact Hh].
  destruct (H1 Hw Hh) as [Hp Hn]. cbv zeta in Hp, Hn.
  destruct (Qlt_le_dec 0 (Rect.width A * Rect.height A
                          + Rect.width B * Rect.height B
                          - (xB - xA) * (yB - yA))) as [Hu | Hu];
    [| left; apply Hn, Hu].
  right. exists (xB - xA), (yB - yA).
  split; [exact Hw |]. split; [exact Hh |].
  split; [exists xA; repeat split; lra |].
  split; [exists yA; repeat split; lra |].
  split; [exact Hu | apply Hp, Hu].
Qed.

(** X8. For rectangles of nonnegative width and height the overlap
    ratio lies between 0 and 1. *)
Theorem calculateIoU_range (A B : Rect.t) :
  0 <= Rect.width A -> 0 <= Rect.height A ->
  0 <= Rect.width B -> 0 <= Rect.height B ->
  0 <= calculateIoU A B /\ calculateIoU A B <= 1.
Proof.
  intros HwA HhA HwB HhB.
  destruct (calculateIoU_cases A B)
    as [E | (iw & ih & Hiw & Hih & (xA & X1 & X2 & X3 & X4)
             & (yA & Y1 & Y2 & Y3 & Y4) & Hu & E)];
    rewrite E; [split; lra |].
  assert (Hi : 0 < iw * ih) by (apply Qmult_lt_0_compat; assumption).
  assert (Ha : iw * ih <= Rect.width A * Rect.height A) by nra.
  assert (Hb : iw * ih <= Rect.width B * Rect.height B) by nra.
  split.
  - apply Qle_shift_div_l; [exact Hu | lra].
  - apply Qle_shift_div_r; [exact Hu | lra].
Qed.

Lemma calculateIoU_range_witness :
  let A := Rect.mk 0 0 4 4 in
  let B := Rect.mk 2 2 4 4 in
  0 <= calculateIoU A B /\ calculateIoU A B <= 1.
Proof.
  apply calculateIoU_range; discriminate.
Defined.

(** X9. The overlap ratio of two rectangles of nonnegative width and
    height is 1 only if they are the same rectangle. *)
Theorem calculateIoU_one_same (A B : Rect.t) :
  0 <= Rect.width A -> 0 <= Rect.height A ->
  0 <= Rect.width B -> 0 <= Rect.height B ->
  calculateIoU A B == 1 ->
  Rect.x A == Rect.x B /\ Rect.y A == Rect.y B
  /\ Rect.width A == Rect.width B /\ Rect.height A == Rect.height B.
Proof.
  intros HwA HhA HwB HhB Hone.
  destruct (calculateIoU_cases A B)
    as [E | (iw & ih & Hiw & Hih & (xA & X1 & X2 & X3 & X4)
             & (yA & Y1 & Y2 & Y3 & Y4) & Hu & E)];
    [rewrite E in Hone; discriminate |].
  rewrite E in Hone.
  set (a := Rect.width A * Rect.height A) in *.
  set (b := Rect.width B * Rect.height B) in *.
  assert (Hi : 0 < iw * ih) by (apply Qmult_lt_0_compat; assumption).
  assert (Ha : iw * ih <= a) by (unfold a; nra).
  assert (Hb : iw * ih <= b) by (unfold b; nra).
  assert (Heq : iw * ih == a + b - iw * ih).
  { assert (Hne : ~ a + b - iw * ih == 0) by (intros Z; rewrite Z in Hu; lra).
    assert (E1 : iw * ih == iw * ih / (a + b - iw * ih) * (a + b - iw * ih))
      by (field; exact Hne).
    rewrite Hone in E1. lra. }
  assert (Ea : iw * ih == a) by lra.
  assert (Eb : iw * ih == b) by lra.
  unfold a in Ea. unfold b in Eb.
  assert (WA : iw == Rect.width A) by nra.
  assert (HA : ih == Rect.height A) by nra.
  assert (WB : iw == Rect.width B) by nra.
  assert (HB : ih == Rect.height B) by nra.
  repeat split; lra.
Qed.

Lemma calculateIoU_one_same_witness :
  let A := Rect.mk 1 2 3 4 in
  calculateIoU A A == 1
  /\ (Rect.x A == Rect.x A /\ Rect.y A == Rect.y A
      /\ Rect.width A == Rect.width A /\ Rect.height A == Rect.height A).
Proof.
  cbv zeta. assert (H : calculateIoU (Rect.mk 1 2 3 4) (Rect.mk 1 2 3 4) == 1)
    by reflexivity.
  split; [exact H |].
  apply calculateIoU_one_same; try discriminate. exact H.
Defined.

(** X10. A positive overlap ratio forces a positive width and height of
    both rectangles; past the spatial lock of the scanner the densities are
    therefore quotients by a positive area. *)
Theorem calculateIoU_positive_sizes (A B : Rect.t) :
  0 < calculateIoU A B ->
  (0 < Rect.width A /\ 0 < Rect.height A)
  /\ (0 < Rect.width B /\ 0 < Rect.height B).
Proof.
  intros Hpos.
  destruct (calculateIoU_cases A B)
    as [E | (iw & ih & Hiw & Hih & (xA & X1 & X2 & X3 & X4)
             & (yA & Y1 & Y2 & Y3 & Y4) & _)];
    [rewrite E in Hpos; lra |].
  repeat split; lra.
Qed.

Lemma calculateIoU_positive_sizes_witness :
  let A := Rect.mk 0 0 4 4 in
  let B := Rect.mk 2 2 4 4 in
  0 < calculateIoU A B
  /\ (0 < Rect.width A /\ 0 < Rect.height A)
  /\ (0 < Rect.width B /\ 0 < Rect.height B).
Proof.
  cbv zeta. split; [reflexivity |].
  apply calculateIoU_positive_sizes. reflexivity.
Defined.

(** ** More on the colour ranges *)

(** The window around a channel value contains the value. *)
Lemma window_contains (top c t : Q) :
  0 <= c -> c <= top -> 0 <= t ->
  Qmax 0 (c - t) <= c /\ c <= Qmin top (c + t).
Proof.
  intros Hc0 Hc1 Ht. split.
  - apply Q.max_lub; lra.
  - apply Q.min_glb; lra.
Qed.

(** X11. For channels in 0..255 and a nonnegative tolerance, each of
    the hue, saturation and value bounds of [getHsvRange] encloses the
    converted colour itself, so [lower <= upper] on every channel; the
    fourth entries are 0 and 255. *)
Theorem getHsvRange_encloses_colour (rgb0 rgb1 rgb2 : Q) (tolerance : Tolerance.t) :
  0 <= rgb0 <= 255 -> 0 <= rgb1 <= 255 -> 0 <= rgb2 <= 255 ->
  0 <= Tolerance.h tolerance ->
  0 <= Tolerance.s tolerance ->
  0 <= Tolerance.v tolerance ->
  let range := getHsvRange (rgb0, rgb1, rgb2) tolerance in
  let lower := HSVRange.lower range in
  let upper := HSVRange.upper range in
  let r := rgb0 / 255 in
  let g := rgb1 / 255 in
  let b := rgb2 / 255 in
  (channel 0 lower <= cvHue r g b /\ cvHue r g b <= channel 0 upper)
  /\ (channel 1 lower <= cvSaturation r g b
      /\ cvSaturation r g b <= channel 1 upper)
  /\ (channel 2 lower <= cvValue r g b /\ cvValue r g b <= channel 2 upper)
  /\ (channel 3 lower = 0 /\ channel 3 upper = 255)
  /\ (List.length lower = 4%nat /\ List.length upper = 4%nat).
Proof.
  intros [R0 R1] [G0 G1] [B0 B1] Th Ts Tv. cbv zeta.
  rewrite getHsvRange_channels. cbv zeta.
  cbn [HSVRange.lower HSVRange.upper channel nth List.length].
  pose proof (channel_unit _ R0 R1) as Hr.
  pose proof (channel_unit _ G0 G1) as Hg.
  pose proof (channel_unit _ B0 B1) as Hb.
  destruct (cvHue_bounds (rgb0 / 255) (rgb1 / 255) (rgb2 / 255)) as [H0 H1].
  destruct (cvSaturation_bounds _ _ _ Hr Hg Hb) as [S0 S1].
  destruct (cvValue_bounds _ _ _ Hr Hg Hb) as [V0 V1].
  split; [apply window_contains; assumption |].
  split; [apply window_contains; assumption |].
  split; [apply window_contains; assumption |].
  repeat split; reflexivity.
Qed.

Lemma getHsvRange_encloses_colour_witness :
  let range := getHsvRange MENU_LIGHT (Tolerance.mk 15 50 50) in
  let lower := HSVRange.lower range in
  let upper := HSVRange.upper range in
  channel 0 lower <= cvHue (50 / 255) (4 / 255) (139 / 255)
  /\ cvHue (50 / 255) (4 / 255) (139 / 255) <= channel 0 upper.
Proof.
  apply (getHsvRange_encloses_colour 50 4 139 (Tolerance.mk 15 50 50));
    try (split; discriminate); discriminate.
Defined.

Lemma window_monotone (top c t1 t2 : Q) :
  t1 <= t2 ->
  Qmax 0 (c - t2) <= Qmax 0 (c - t1) /\ Qmin top (c + t1) <= Qmin top (c + t2).
Proof.
  intros Ht. split.
  - apply Q.max_lub; [apply Q.le_max_l |].
    apply Qle_trans with (c - t1); [lra | apply Q.le_max_r].
  - apply Q.min_glb; [apply Q.le_min_l |].
    apply Qle_trans with (c + t1); [apply Q.le_min_r | lra].
Qed.

(** X12. A larger tolerance gives a wider range for the same colour:
    on every channel the lower bound does not rise and the upper bound does
    not fall. *)
Theorem getHsvRange_tolerance_monotone (rgb : Q * Q * Q) (t1 t2 : Tolerance.t) (i : nat) :
  Tolerance.h t1 <= Tolerance.h t2 ->
  Tolerance.s t1 <= Tolerance.s t2 ->
  Tolerance.v t1 <= Tolerance.v t2 ->
  channel i (HSVRange.lower (getHsvRange rgb t2))
  <= channel i (HSVRange.lower (getHsvRange rgb t1))
  /\ channel i (HSVRange.upper (getHsvRange rgb t1))
     <= channel i (HSVRange.upper (getHsvRange rgb t2)).
Proof.
  intros Hh Hs Hv. destruct rgb as [[rgb0 rgb1] rgb2].
  rewrite !getHsvRange_channels. cbv zeta.
  cbn [HSVRange.lower HSVRange.upper]. unfold channel.
  destruct i as [| [| [| [| i]]]]; cbn [nth];
    try (apply window_monotone; assumption);
    try (split; apply Qle_refl).
Qed.

Lemma getHsvRange_tolerance_monotone_witness :
  channel 0 (HSVRange.lower (getHsvRange MENU_DARK (Tolerance.mk 20 50 50)))
  <= channel 0 (HSVRange.lower (getHsvRange MENU_DARK defaultTolerance))
  /\ channel 0 (HSVRange.upper (getHsvRange MENU_DARK defaultTolerance))
     <= channel 0 (HSVRange.upper (getHsvRange MENU_DARK (Tolerance.mk 20 50 50))).
Proof.
  apply (getHsvRange_tolerance_monotone MENU_DARK defaultTolerance
           (Tolerance.mk 20 50 50) 0); discriminate.
Defined.

Lemma max3_same (c : Q) : JS.Math_max3 c c c == c.
Proof.
  unfold JS.Math_max3. rewrite !Q.max_l; [reflexivity | apply Qle_refl |].
  rewrite Q.max_l; apply Qle_refl.
Qed.

Lemma min3_same (c : Q) : JS.Math_min3 c c c == c.
Proof.
  unfold JS.Math_min3. rewrite !Q.min_l; [reflexivity | apply Qle_refl |].
  rewrite Q.min_l; apply Qle_refl.
Qed.

(** X13. A grey colour (three equal channels, black and white
    included) has hue 0 and saturation 0, without any division by a zero
    difference or a zero maximum: its hue bounds are 0 and [min(180, h)]
    and its saturation bounds 0 and [min(255, s)] for a nonnegative
    tolerance [(h, s, v)]. *)
Theorem getHsvRange_grey (c : Q) (tolerance : Tolerance.t) :
  0 <= Tolerance.h tolerance ->
  0 <= Tolerance.s tolerance ->
  let range := getHsvRange (c, c, c) tolerance in
  channel 0 (HSVRange.lower range) == 0
  /\ channel 0 (HSVRange.upper range) == Qmin 180 (Tolerance.h tolerance)
  /\ channel 1 (HSVRange.lower range) == 0
  /\ channel 1 (HSVRange.upper range) == Qmin 255 (Tolerance.s tolerance).
Proof.
  intros Th Ts. cbv zeta. rewrite getHsvRange_channels. cbv zeta.
  cbn [HSVRange.lower HSVRange.upper channel nth].
  assert (Hdelta : JS.eqb (JS.Math_max3 (c / 255) (c / 255) (c / 255)
                           - JS.Math_min3 (c / 255) (c / 255) (c / 255)) 0 = true).
  { apply eqb_eq. rewrite max3_same, min3_same. ring. }
  assert (Hhue : cvHue (c / 255) (c / 255) (c / 255) == 0).
  { unfold cvHue. cbv zeta. rewrite Hdelta. reflexivity. }
  assert (Hsat : cvSaturation (c / 255) (c / 255) (c / 255) == 0).
  { unfold cvSaturation. cbv zeta.
    destruct (JS.eqb (JS.Math_max3 (c / 255) (c / 255) (c / 255)) 0) eqn:E0.
    - ring.
    - apply eqb_eq in Hdelta.
      set (m := JS.Math_max3 (c / 255) (c / 255) (c / 255)) in *.
      set (n := JS.Math_min3 (c / 255) (c / 255) (c / 255)) in *.
      assert (Z : (m - n) / m == 0) by (rewrite Hdelta; reflexivity).
      rewrite Z. ring. }
  rewrite Hhue, Hsat.
  repeat split.
  - apply Q.max_l. lra.
  - assert (E : 0 + Tolerance.h tolerance == Tolerance.h tolerance) by ring.
    rewrite E. reflexivity.
  - apply Q.max_l. lra.
  - assert (E : 0 + Tolerance.s tolerance == Tolerance.s tolerance) by ring.
    rewrite E. reflexivity.
Qed.

Lemma getHsvRange_grey_witness :
  let range := getHsvRange TEXT_WHITE defaultTolerance in
  channel 0 (HSVRange.lower range) == 0
  /\ channel 0 (HSVRange.upper range) == Qmin 180 10
  /\ channel 1 (HSVRange.lower range) == 0
  /\ channel 1 (HSVRange.upper range) == Qmin 255 40.
Proof.
  apply (getHsvRange_grey 255 defaultTolerance); discriminate.
Defined.

(** The hue after the wrap of negative angles and the halving. *)
Lemma hue_halved (h lo hi : Q) :
  0 <= lo -> lo <= h -> h <= hi ->
  lo / 2 <= (if JS.ltb h 0 then h + 360 else h) / 2
  /\ (if JS.ltb h 0 then h + 360 else h) / 2 <= hi / 2.
Proof.
  intros H0 H1 H2.
  replace (JS.ltb h 0) with false by (symmetry; apply ltb_ge; lra).
  assert (E1 : h / 2 == h * (1 # 2)) by reflexivity.
  assert (E2 : lo / 2 == lo * (1 # 2)) by reflexivity.
  assert (E3 : hi / 2 == hi * (1 # 2)) by reflexivity.
  rewrite E1, E2, E3. lra.
Qed.

Lemma cvHue_sector (r g b : Q) :
  (g < r -> b < r -> cvHue r g b <= 30 \/ 150 <= cvHue r g b)
  /\ (r < g -> b < g -> 30 <= cvHue r g b /\ cvHue r g b <= 90)
  /\ (r < b -> g < b -> 90 <= cvHue r g b /\ cvHue r g b <= 150).
Proof.
  destruct (max3_upper r g b) as (Mr & Mg & Mb).
  destruct (min3_lower r g b) as (mr & mg & mb).
  unfold cvHue. cbv zeta.
  set (max := JS.Math_max3 r g b) in *. set (min := JS.Math_min3 r g b) in *.
  set (delta := max - min).
  split; [| split]; intros H1 H2.
  - assert (Hmax : max <= r) by (apply max3_bound; lra).
    assert (Hd : 0 < delta) by (unfold delta; lra).
    replace (JS.eqb delta 0) with false by (symmetry; apply eqb_neq; lra).
    replace (JS.eqb max r) with true by (symmetry; apply eqb_eq; lra).
    destruct (ratio_bounds (g - b) delta Hd) as [Hlo Hhi];
      [unfold delta; lra | unfold delta; lra |].
    pose proof (rem_small _ Hlo Hhi) as Erem.
    set (h := 60 * JS.rem ((g - b) / delta) 6).
    assert (Hh : -60 <= h /\ h <= 60) by (unfold h; rewrite Erem; lra).
    destruct (JS.ltb h 0) eqn:Hneg.
    + right. assert (E : (h + 360) / 2 == (h + 360) * (1 # 2)) by reflexivity.
      rewrite E. lra.
    + left. apply ltb_ge in Hneg.
      assert (E : h / 2 == h * (1 # 2)) by reflexivity. rewrite E. lra.
  - assert (Hmax : max <= g) by (apply max3_bound; lra).
    assert (Hd : 0 < delta) by (unfold delta; lra).
    replace (JS.eqb delta 0) with false by (symmetry; apply eqb_neq; lra).
    replace (JS.eqb max r) with false by (symmetry; apply eqb_neq; lra).
    replace (JS.eqb max g) with true by (symmetry; apply eqb_eq; lra).
    destruct (ratio_bounds (b - r) delta Hd) as [Hlo Hhi];
      [unfold delta; lra | unfold delta; lra |].
    assert (E30 : 30 == 60 / 2) by reflexivity.
    assert (E90 : 90 == 180 / 2) by reflexivity.
    rewrite E30 at 1. rewrite E90. apply hue_halved; lra.
  - assert (Hmax : max <= b) by (apply max3_bound; lra).
    assert (Hd : 0 < delta) by (unfold delta; lra).
    replace (JS.eqb delta 0) with false by (symmetry; apply eqb_neq; lra).
    replace (JS.eqb max r) with false by (symmetry; apply eqb_neq; lra).
    replace (JS.eqb max g) with false by (symmetry; apply eqb_neq; lra).
    replace (JS.eqb max b) with true by (symmetry; apply eqb_eq; lra).
    destruct (ratio_bounds (r - g) delta Hd) as [Hlo Hhi];
      [unfold delta; lra | unfold delta; lra |].
    assert (E90 : 90 == 180 / 2) by reflexivity.
    assert (E150 : 150 == 300 / 2) by reflexivity.
    rewrite E90 at 1. rewrite E150. apply hue_halved; lra.
Qed.

Lemma channel_unit_lt (a b : Q) : a < b -> a / 255 < b / 255.
Proof.
  intros H. assert (Ea : a / 255 == a * (1 # 255)) by reflexivity.
  assert (Eb : b / 255 == b * (1 # 255)) by reflexivity.
  rewrite Ea, Eb. lra.
Qed.

(** X14. The hue bounds of [getHsvRange] are the window around a hue
    that falls in the sector of the strictly largest channel: around red
    (at most 30 or at least 150) when red is largest, between 30 and 90
    when green is, between 90 and 150 when blue is. *)
Theorem getHsvRange_hue_sector (rgb0 rgb1 rgb2 : Q) (tolerance : Tolerance.t) :
  exists hue : Q,
    channel 0 (HSVRange.lower (getHsvRange (rgb0, rgb1, rgb2) tolerance))
    = Qmax 0 (hue - Tolerance.h tolerance)
    /\ channel 0 (HSVRange.upper (getHsvRange (rgb0, rgb1, rgb2) tolerance))
       = Qmin 180 (hue + Tolerance.h tolerance)
    /\ (rgb1 < rgb0 -> rgb2 < rgb0 -> hue <= 30 \/ 150 <= hue)
    /\ (rgb0 < rgb1 -> rgb2 < rgb1 -> 30 <= hue /\ hue <= 90)
    /\ (rgb0 < rgb2 -> rgb1 < rgb2 -> 90 <= hue /\ hue <= 150).
Proof.
  exists (cvHue (rgb0 / 255) (rgb1 / 255) (rgb2 / 255)).
  split; [reflexivity |]. split; [reflexivity |].
  destruct (cvHue_sector (rgb0 / 255) (rgb1 / 255) (rgb2 / 255))
    as (Hr & Hg & Hb).
  split; [| split]; intros H1 H2;
    [apply Hr | apply Hg | apply Hb]; apply channel_unit_lt; assumption.
Qed.

Lemma getHsvRange_hue_sector_witness :
  exists hue : Q,
    channel 0 (HSVRange.lower (getHsvRange MENU_DARK defaultTolerance))
    = Qmax 0 (hue - 10)
    /\ 90 <= hue /\ hue <= 150.
Proof.
  destruct (getHsvRange_hue_sector 14 4 49 defaultTolerance)
    as (hue & Hl & _ & _ & _ & Hb).
  exists hue. split; [exact Hl |]. apply Hb; reflexivity.
Defined.

(** ** The calibrated profile *)

Section CalibratedProfile.
Context {Image Mat Contour : Type} (cv : OpenCV Image Mat Contour).



End CalibratedProfile.


(** ** Projection with the rounding of the source *)

(** A number between a whole number and the next one has that whole number
    as its floor. *)
Lemma floor_between (z : Z) (y : Q) :
  inject_Z z <= y -> y < inject_Z z + 1 -> JS.Math_floor y == inject_Z z.
Proof.
  intros Hlo Hhi. unfold JS.Math_floor.
  assert (H1 : (z <= Qfloor y)%Z).
  { rewrite <- (Qfloor_Z z). apply Qfloor_resp_le, Hlo. }
  assert (H2 : (Qfloor y < z + 1)%Z).
  { rewrite Zlt_Qlt, inject_Z_plus. change (inject_Z 1) with 1.
    apply (Qle_lt_trans _ y); [apply Qfloor_le | exact Hhi]. }
  replace (Qfloor y) with z by lia. reflexivity.
Qed.

(** Normalizing a whole coordinate [v] by the side [c] of the reference
    and projecting it onto a side [k] times as long, of at most 8192
    pixels, gives [k * v] or the whole number below: the two roundings
    together move the product by less than one. *)
Lemma floor_rounded_scaled (v c F : Q) (k : Z) :
  isInteger v -> 0 <= v -> v <= c -> 0 < c ->
  (0 < k)%Z -> F == inject_Z k * c -> F <= maxSide ->
  oneBelow (inject_Z k * v) (JS.Math_floor (rnd64 (rnd64 (v / c) * F))).
Proof.
  unfold isInteger, JS.Math_floor at 1, maxSide. intros Hv Hv0 Hvc Hc Hk HF HF'.
  assert (Hk' : 0 < inject_Z k).
  { change 0 with (inject_Z 0). rewrite <- Zlt_Qlt. exact Hk. }
  set (q := v / c).
  assert (Eq : q * c == v) by (unfold q; field; lra).
  assert (Hq : 0 <= q /\ q <= 1).
  { unfold q. split; [apply Qle_shift_div_l | apply Qle_shift_div_r]; lra. }
  destruct (rnd64_error 0 q) as [Q0 Q1]; [lia | cbn; lra | cbn; lra |].
  assert (E53 : 2 ^ (0 - 53) == 1 # 9007199254740992) by reflexivity.
  rewrite E53 in Q0, Q1.
  set (q' := rnd64 q) in *.
  set (T := inject_Z k * v).
  assert (ET : q * F == T).
  { unfold T. rewrite HF. rewrite <- Eq. ring. }
  assert (HF0 : 0 < F).
  { rewrite HF. apply Qmult_lt_0_compat; assumption. }
  assert (HT : 0 <= T /\ T <= F).
  { unfold T. rewrite HF. split.
    - apply Qmult_le_0_compat; lra.
    - apply Qmult_le_l; assumption. }
  assert (P0 : T - (1 # 1099511627776) <= q' * F).
  { rewrite <- ET.
    assert (H : (q - (1 # 9007199254740992)) * F <= q' * F)
      by (apply Qmult_le_compat_r; lra).
    assert (H' : (1 # 9007199254740992) * F <= 1 # 1099511627776) by lra.
    lra. }
  assert (P1 : q' * F <= T + (1 # 1099511627776)).
  { rewrite <- ET.
    assert (H : q' * F <= (q + (1 # 9007199254740992)) * F)
      by (apply Qmult_le_compat_r; lra).
    assert (H' : (1 # 9007199254740992) * F <= 1 # 1099511627776) by lra.
    lra. }
  set (P := q' * F) in *.
  assert (E14 : 2 ^ 14 == 16384) by reflexivity.
  destruct (rnd64_error 14 P) as [R0 R1]; [lia | rewrite E14; lra | rewrite E14; lra |].
  assert (E39 : 2 ^ (14 - 53) == 1 # 549755813888) by reflexivity.
  rewrite E39 in R0, R1.
  assert (ETz : T == inject_Z (k * Qfloor v)).
  { unfold T. rewrite inject_Z_mult. unfold JS.Math_floor in Hv. rewrite Hv.
    reflexivity. }
  destruct (Qlt_le_dec (rnd64 P) T) as [Hlt | Hge].
  - right. rewrite ETz.
    assert (E1 : inject_Z (k * Qfloor v) - 1 == inject_Z (k * Qfloor v - 1)).
    { unfold Z.sub. rewrite inject_Z_plus. reflexivity. }
    rewrite E1. apply floor_between.
    + rewrite <- E1, <- ETz. lra.
    + rewrite <- E1, <- ETz. lra.
  - left. rewrite ETz. apply floor_between; rewrite <- ETz; lra.
Qed.

(** The same on a side of the same length. *)
Lemma floor_rounded_same (v c : Q) :
  isInteger v -> 0 <= v -> v <= c -> 0 < c -> c <= maxSide ->
  oneBelow v (JS.Math_floor (rnd64 (rnd64 (v / c) * c))).
Proof.
  intros Hv Hv0 Hvc Hc Hc'.
  destruct (floor_rounded_scaled v c c 1 Hv Hv0 Hvc Hc) as [E | E];
    [reflexivity | change (inject_Z 1) with 1; ring | exact Hc' | left | right];
    rewrite E; change (inject_Z 1) with 1; ring.
Qed.

Section Projection.
Context {Image Mat Contour : Type} (cv : OpenCV Image Mat Contour).

(** X22. The projection is independent of the resolution up to one pixel,
    with the rounding of binary64: for a bounding box in whole pixels
    inside the reference, normalized by [calibrateReference], and a frame
    [k] times as wide and as high as the reference, of at most 8192 pixels
    a side, each coordinate of the expected rectangle of [scanFrame] is
    [k] times that of the box, or one pixel less. *)
Theorem expectedRect_scales (src frame : Mat) (rect : Rect.t)
    (profile : VisionProfile.t) (k : Z) :
  (0 < k)%Z ->
  0 < cols src -> 0 < rows src ->
  cols frame == inject_Z k * cols src -> cols frame <= maxSide ->
  rows frame == inject_Z k * rows src -> rows frame <= maxSide ->
  pixelBox rect -> insideImage (cols src) (rows src) rect ->
  Spatial.normalizedBox (VisionProfile.spatial profile)
  = RoundedSpatial.normalizedBox rnd64 src rect ->
  let expected := RoundedSpatial.expectedRect rnd64 frame profile in
  oneBelow (inject_Z k * Rect.x rect) (Rect.x expected)
  /\ oneBelow (inject_Z k * Rect.y rect) (Rect.y expected)
  /\ oneBelow (inject_Z k * Rect.width rect) (Rect.width expected)
  /\ oneBelow (inject_Z k * Rect.height rect) (Rect.height expected).
Proof.
  intros Hk Hc Hr Hfw Hfw' Hfh Hfh' (Ix & Iy & Iw & Ih & Wpos & Hpos)
         (X0 & Y0 & W0 & H0 & XW & YH) Hnb.
  cbv zeta. unfold RoundedSpatial.expectedRect. rewrite Hnb.
  unfold RoundedSpatial.normalizedBox.
  cbn [NormalizedBox.x NormalizedBox.y NormalizedBox.w NormalizedBox.h
       Rect.x Rect.y Rect.width Rect.height].
  repeat split; apply floor_rounded_scaled; try assumption; lra.
Qed.

(** The loop answers [true] when some contour passes both tests, whatever
    the expected rectangle is. *)
Lemma scanLoop_accepts (srcFrame : Mat) (profile : VisionProfile.t)
    (expected : Rect.t) (contours : list Contour) (contour : Contour) :
  In contour contours ->
  (3 # 10) <= calculateIoU (boundingRect contour) expected ->
  triadCheck srcFrame profile (boundingRect contour) = true ->
  scanLoop srcFrame profile expected contours = true.
Proof.
  intros Hin Hiou Htriad.
  induction contours as [| c l IH]; [destruct Hin |].
  cbn [scanLoop].
  destruct (JS.ltb (calculateIoU (boundingRect c) expected) (3 # 10)) eqn:G.
  - destruct Hin as [-> | Hin]; [| apply IH, Hin].
    apply ltb_lt in G. exfalso. apply (Qlt_not_le _ _ G Hiou).
  - destruct (triadCheck srcFrame profile (boundingRect c)) eqn:T; [reflexivity |].
    destruct Hin as [-> | Hin]; [congruence | apply IH, Hin].
Qed.

End Projection.

(** A rectangle that is one pixel off at most in each coordinate, towards
    zero, overlaps a box of at least ten pixels a side by 0.3 or more. *)
Lemma calculateIoU_oneBelow (B E : Rect.t) :
  10 <= Rect.width B -> 10 <= Rect.height B ->
  oneBelow (Rect.x B) (Rect.x E) -> oneBelow (Rect.y B) (Rect.y E) ->
  oneBelow (Rect.width B) (Rect.width E) ->
  oneBelow (Rect.height B) (Rect.height E) ->
  (3 # 10) <= calculateIoU B E.
Proof.
  intros Hw Hh Ox Oy Ow Oh.
  assert (Bx : Rect.x B - 1 <= Rect.x E /\ Rect.x E <= Rect.x B)
    by (destruct Ox as [-> | ->]; lra).
  assert (By : Rect.y B - 1 <= Rect.y E /\ Rect.y E <= Rect.y B)
    by (destruct Oy as [-> | ->]; lra).
  assert (Bw : Rect.width B - 1 <= Rect.width E /\ Rect.width E <= Rect.width B)
    by (destruct Ow as [-> | ->]; lra).
  assert (Bh : Rect.height B - 1 <= Rect.height E /\ Rect.height E <= Rect.height B)
    by (destruct Oh as [-> | ->]; lra).
  clear Ox Oy Ow Oh.
  destruct (calculateIoU_corners B E (Rect.x B) (Rect.y B)
              (Rect.x E + Rect.width E) (Rect.y E + Rect.height E))
    as [_ H].
  - symmetry. apply Q.max_l. lra.
  - symmetry. apply Q.max_l. lra.
  - symmetry. apply Q.min_r. lra.
  - symmetry. apply Q.min_r. lra.
  - set (w := Rect.width B) in *. set (h := Rect.height B) in *.
    set (ew := Rect.width E) in *. set (eh := Rect.height E) in *.
    set (iw := Rect.x E + ew - Rect.x B) in *.
    set (ih := Rect.y E + eh - Rect.y B) in *.
    assert (Iw : w - 2 <= iw /\ iw <= ew) by (unfold iw; lra).
    assert (Ih : h - 2 <= ih /\ ih <= eh) by (unfold ih; lra).
    clearbody iw ih.
    destruct H as [H _]; [lra | lra |]. cbv zeta in H.
    assert (A1 : ew * eh <= w * h) by nra.
    assert (A2 : (w - 2) * (h - 2) <= iw * ih) by nra.
    assert (A3 : (64 # 100) * (w * h) <= (w - 2) * (h - 2)) by nra.
    assert (A4 : iw * ih <= ew * eh) by nra.
    assert (A5 : 100 <= w * h) by nra.
    rewrite H by lra.
    apply Qle_shift_div_l; lra.
Qed.

Section Lock.
Context {Image Mat Contour : Type} (cv : OpenCV Image Mat Contour).

(** X16. Scanning the reference itself with the box normalized from one of
    its contours, with the rounding of binary64: for a bounding box in
    whole pixels, of at least ten pixels a side, inside a reference of at
    most 8192 pixels a side, the rectangle projected by [scanFrame] is at
    most one pixel off in each coordinate, its overlap ratio with the box
    is 0.3 or more, and the loop of [scanFrame] answers [true] as soon as
    the triad check holds on that box. *)
Theorem calibrated_profile_locks (src : Mat) (profile : VisionProfile.t)
    (contours : list Contour) (best : Contour) :
  0 < cols src -> cols src <= maxSide ->
  0 < rows src -> rows src <= maxSide ->
  pixelBox (boundingRect best) ->
  insideImage (cols src) (rows src) (boundingRect best) ->
  10 <= Rect.width (boundingRect best) ->
  10 <= Rect.height (boundingRect best) ->
  Spatial.normalizedBox (VisionProfile.spatial profile)
  = RoundedSpatial.normalizedBox rnd64 src (boundingRect best) ->
  let expected := RoundedSpatial.expectedRect rnd64 src profile in
  (3 # 10) <= calculateIoU (boundingRect best) expected
  /\ (In best contours ->
      triadCheck src profile (boundingRect best) = true ->
      scanLoop src profile expected contours = true).
Proof.
  intros Hc Hc' Hr Hr' (Ix & Iy & Iw & Ih & Wpos & Hpos)
         (X0 & Y0 & W0 & H0 & XW & YH) Hw Hh Hnb. cbv zeta.
  assert (Hiou : (3 # 10) <= calculateIoU (boundingRect best)
                               (RoundedSpatial.expectedRect rnd64 src profile)).
  { apply calculateIoU_oneBelow; try assumption;
      unfold RoundedSpatial.expectedRect; rewrite Hnb;
      unfold RoundedSpatial.normalizedBox;
      cbn [NormalizedBox.x NormalizedBox.y NormalizedBox.w NormalizedBox.h
           Rect.x Rect.y Rect.width Rect.height];
      apply floor_rounded_same; try assumption; lra. }
  split; [exact Hiou |].
  intros Hbest Htriad.
  apply (scanLoop_accepts cv src profile _ contours best); assumption.
Qed.

End Lock.
Lemma expectedRect_scales_witness :
  let expected :=
    @RoundedSpatial.expectedRect unit unit Rect.t fixtureCv rnd64 tt
      roundedFixtureProfile in
  pixelBox fixtureBox /\ insideImage 640 360 fixtureBox
  /\ (oneBelow (1 * 100) (Rect.x expected)
      /\ oneBelow (1 * 49) (Rect.y expected)
      /\ oneBelow (1 * 200) (Rect.width expected)
      /\ oneBelow (1 * 100) (Rect.height expected))
  /\ expected = Rect.mk 100 48 200 100.
Proof.
  cbv zeta.
  assert (H1 : pixelBox fixtureBox) by (repeat split).
  assert (H2 : insideImage 640 360 fixtureBox) by (repeat split; discriminate).
  split; [exact H1 |]. split; [exact H2 |]. split.
  - exact (expectedRect_scales fixtureCv tt tt fixtureBox roundedFixtureProfile 1
             eq_refl eq_refl eq_refl eq_refl ltac:(discriminate)
             eq_refl ltac:(discriminate) H1 H2 eq_refl).
  - vm_compute. reflexivity.
Defined.

Lemma calibrated_profile_locks_witness :
  let expected :=
    @RoundedSpatial.expectedRect unit unit Rect.t fixtureCv rnd64 tt
      roundedFixtureProfile in
  pixelBox fixtureBox /\ insideImage 640 360 fixtureBox
  /\ (3 # 10) <= calculateIoU fixtureBox expected
  /\ @scanLoop unit unit Rect.t fixtureCv tt roundedFixtureProfile expected
       [Rect.mk 0 0 10 10; fixtureBox] = true.
Proof.
  cbv zeta.
  assert (H1 : pixelBox fixtureBox) by (repeat split).
  assert (H2 : insideImage 640 360 fixtureBox) by (repeat split; discriminate).
  split; [exact H1 |]. split; [exact H2 |].
  pose proof (calibrated_profile_locks fixtureCv tt roundedFixtureProfile
                [Rect.mk 0 0 10 10; fixtureBox] fixtureBox
                eq_refl ltac:(discriminate) eq_refl ltac:(discriminate)
                H1 H2 ltac:(discriminate) ltac:(discriminate) eq_refl)
    as [Hiou Hscan].
  split; [exact Hiou |].
  apply Hscan; [right; left; reflexivity | vm_compute; reflexivity].
Defined.

(** ** The export command *)

Lemma append_nil_r (s : string) : (s ++ "")%string = s.
Proof. induction s as [| c s IH]; cbn; [| rewrite IH]; reflexivity. Qed.

Lemma append_nil_l (s : string) : ("" ++ s)%string = s.
Proof. reflexivity. Qed.

Lemma append_assoc (s1 s2 s3 : string) :
  ((s1 ++ s2) ++ s3)%string = (s1 ++ (s2 ++ s3))%string.
Proof. induction s1 as [| c s1 IH]; cbn; [| rewrite IH]; reflexivity. Qed.

Lemma concat_cons (s : string) (l : list string) :
  String.concat "" (s :: l) = (s ++ String.concat "" l)%string.
Proof.
  destruct l as [| s' l]; cbn; [rewrite append_nil_r |]; reflexivity.
Qed.

Section FfmpegBuilderFacts.
Variable numberToString : Q -> string.

Lemma segmentStep_fold (l : list (Range.t * nat)) :
  forall filterComplex concatInputs : string,
    fold_left (segmentStep numberToString) l (filterComplex, concatInputs)
    = ((filterComplex
        ++ String.concat ""
             (map (fun ri => videoTrim numberToString (fst ri) (snd ri)
                             ++ audioTrim numberToString (fst ri) (snd ri)) l))%string,
       (concatInputs
        ++ String.concat ""
             (map (fun ri => concatLabels numberToString (snd ri)) l))%string).
Proof.
  induction l as [| [range i] l IH]; intros filterComplex concatInputs.
  - cbn. rewrite !append_nil_r. reflexivity.
  - cbn [fold_left segmentStep map]. rewrite IH, !concat_cons.
    cbn [fst snd]. rewrite !append_assoc. reflexivity.
Qed.

(** X17. Without ranges [buildEditCommand] gives the three arguments
    that copy the input; with ranges it gives seventeen arguments, whatever
    the number of ranges: the input, the filter graph (one video and one
    audio trim per range, in order and labelled by position, then all the
    labels and the concat filter with the number of ranges), the two maps,
    the encoder options and the output name. *)
Theorem buildEditCommand_layout (ranges : list Range.t) (outputName : string) :
  (ranges = [] ->
   buildEditCommand numberToString ranges outputName
   = ["-i"; "input.mp4"; outputName]%string)
  /\ (ranges <> [] ->
      buildEditCommand numberToString ranges outputName
      = ["-i"; "input.mp4"; "-filter_complex";
         filterGraph numberToString ranges;
         "-map"; "[outv]"; "-map"; "[outa]";
         "-c:v"; "libx264"; "-crf"; "18"; "-preset"; "ultrafast";
         "-c:a"; "aac"; outputName]%string).
Proof.
  split.
  - intros ->. reflexivity.
  - intros Hne. unfold buildEditCommand, JS.forEach.
    destruct ranges as [| r l]; [contradiction |].
    cbn [List.length Nat.eqb]. rewrite segmentStep_fold.
    cbn [app]. unfold filterGraph. rewrite !append_nil_l. reflexivity.
Qed.

End FfmpegBuilderFacts.

Lemma buildEditCommand_layout_witness :
  [Range.mk 0 2; Range.mk 4 10] <> []
  /\ buildEditCommand wholeToString [Range.mk 0 2; Range.mk 4 10] "output.mp4"
     = ["-i"; "input.mp4"; "-filter_complex";
        "[0:v]trim=start=0:end=2,setpts=PTS-STARTPTS[v0];[0:a]atrim=start=0:end=2,asetpts=PTS-STARTPTS[a0];[0:v]trim=start=4:end=10,setpts=PTS-STARTPTS[v1];[0:a]atrim=start=4:end=10,asetpts=PTS-STARTPTS[a1];[v0][a0][v1][a1]concat=n=2:v=1:a=1[outv][outa]";
        "-map"; "[outv]"; "-map"; "[outa]";
        "-c:v"; "libx264"; "-crf"; "18"; "-preset"; "ultrafast";
        "-c:a"; "aac"; "output.mp4"]%string.
Proof.
  assert (H : [Range.mk 0 2; Range.mk 4 10] <> []) by discriminate.
  split; [exact H |].
  rewrite (proj2 (buildEditCommand_layout wholeToString _ "output.mp4") H).
  reflexivity.
Defined.

(** ** The export handler *)



(** ** The frame loop *)

Section FrameLoopFacts.
Context {Image Mat Contour : Type}.
Variable cv : option (OpenCV Image Mat Contour).
Variable profile : VisionProfile.t.
Variable duration : Q.

Lemma processFrame_fold (frames : list (Mat * Q)) :
  forall st : ScanState.t,
    let st' := fold_left (processFrame cv profile duration) frames st in
    ScanState.rawDetections st'
    = ScanState.rawDetections st
      ++ map snd (filter (fun frame => scanFrame cv (fst frame) profile) frames)
    /\ ScanState.frameCount st'
       = (ScanState.frameCount st + List.length frames)%nat.
Proof.
  induction frames as [| [mat t] frames IH]; intros st; cbv zeta.
  - cbn. rewrite app_nil_r, Nat.add_0_r. split; reflexivity.
  - cbn [fold_left]. destruct (IH (processFrame cv profile duration st (mat, t)))
      as [E1 E2].
    rewrite E1, E2. cbn [processFrame ScanState.rawDetections ScanState.frameCount
                         filter fst List.length].
    destruct (scanFrame cv mat profile); cbn [map snd].
    + rewrite <- app_assoc. split; [reflexivity | lia].
    + split; [reflexivity | lia].
Qed.

(** X19. After the callbacks of a video the accumulated timestamps are
    those of the frames that [scanFrame] accepts, in the order of delivery,
    and every frame has been counted. *)
Theorem scanFrames_collects (frames : list (Mat * Q)) :
  ScanState.rawDetections (scanFrames cv profile duration frames)
  = map snd (filter (fun frame => scanFrame cv (fst frame) profile) frames)
  /\ ScanState.frameCount (scanFrames cv profile duration frames)
     = List.length frames.
Proof.
  unfold scanFrames.
  destruct (processFrame_fold frames (ScanState.mk [] 0 0)) as [E1 E2].
  split; [exact E1 | exact E2].
Qed.

(** X20. A frame on which the overlay is detected lies in one of the
    finalized detection ranges and never strictly inside a range that
    [getKeepRanges] keeps, whatever the duration is. *)
Theorem detected_frame_not_kept (frames : list (Mat * Q)) (mat : Mat) (t D : Q) :
  In (mat, t) frames ->
  scanFrame cv mat profile = true ->
  (exists r, In r (finalizeRanges cv profile duration frames)
             /\ DetectionRange.start r <= t /\ t <= DetectionRange.end_ r)
  /\ forall k, In k (getKeepRanges (finalizeRanges cv profile duration frames) D) ->
               t <= Range.start k \/ Range.end_ k <= t.
Proof.
  intros Hin Hscan. unfold finalizeRanges, scanFrames.
  destruct (processFrame_fold frames (ScanState.mk [] 0 0)) as [E _].
  cbn [ScanState.rawDetections app] in E. rewrite E.
  set (raw := map snd (filter (fun frame => scanFrame cv (fst frame) profile) frames)).
  assert (Ht : In t raw).
  { unfold raw. apply in_map_iff. exists (mat, t). split; [reflexivity |].
    apply filter_In. split; [exact Hin | exact Hscan]. }
  destruct (processDetections_spec raw) as (_ & _ & Hcov).
  destruct (Hcov t Ht) as (r & Hr & H1 & H2).
  split; [exists r; repeat split; assumption |].
  intros k Hk.
  destruct (getKeepRanges_avoids _ _ _ _ Hk Hr) as [H | H]; [left | right]; lra.
Qed.



End FrameLoopFacts.

Lemma detected_frame_not_kept_witness :
  In (tt, 12 # 10) fixtureFrames
  /\ scanFrame (Some fixtureCv) tt fixtureProfile = true
  /\ forall k,
       In k (getKeepRanges
               (finalizeRanges (Some fixtureCv) fixtureProfile 10 fixtureFrames) 10) ->
       (12 # 10) <= Range.start k \/ Range.end_ k <= (12 # 10).
Proof.
  assert (H1 : In (tt, 12 # 10) fixtureFrames) by (right; left; reflexivity).
  assert (H2 : scanFrame (Some fixtureCv) tt fixtureProfile = true)
    by (vm_compute; reflexivity).
  split; [exact H1 |]. split; [exact H2 |].
  exact (proj2 (detected_frame_not_kept (Some fixtureCv) fixtureProfile 10
                  fixtureFrames tt (12 # 10) 10 H1 H2)).
Defined.


(** ** More on what the inverter keeps *)

Lemma keepFrom_nothing (D : Q) (l : list DetectionRange.t) :
  forall c : Q,
    D - minSegment <= c ->
    Forall (fun d => DetectionRange.start d <= D) l ->
    keepFrom c l D = [].
Proof.
  induction l as [| d l IH]; intros c Hc Hl.
  - unfold keepFrom. cbn [fold_left].
    replace (JS.ltb c (D - minSegment)) with false
      by (symmetry; apply ltb_ge, Hc).
    reflexivity.
  - inversion Hl as [| ? ? Hd Hl']; subst. rewrite keepFrom_cons.
    replace (JS.gtb (DetectionRange.start d) (c + minSegment)) with false
      by (symmetry; apply gtb_le; unfold minSegment in *; lra).
    apply IH; [| exact Hl'].
    apply (Qle_trans _ _ _ Hc), Q.le_max_l.
Qed.

Lemma keepFrom_fully_detected (D : Q) (whole : DetectionRange.t)
    (l : list DetectionRange.t) :
  forall c : Q,
    0 <= c ->
    StronglySorted
      (fun d1 d2 => DetectionRange.start d1 <= DetectionRange.start d2) l ->
    Forall (fun d => DetectionRange.start d <= D) l ->
    In whole l ->
    DetectionRange.start whole <= minSegment ->
    D - minSegment <= DetectionRange.end_ whole ->
    keepFrom c l D = [].
Proof.
  induction l as [| d l IH]; intros c Hc Hsorted Hl Hin Hs He; [destruct Hin |].
  inversion Hsorted as [| ? ? Hsorted' Hd]; subst.
  inversion Hl as [| ? ? Hd0 Hl']; subst.
  rewrite Forall_forall in Hd.
  assert (Hstart : DetectionRange.start d <= minSegment).
  { destruct Hin as [-> | Hin]; [exact Hs |].
    apply (Qle_trans _ _ _ (Hd _ Hin) Hs). }
  rewrite keepFrom_cons.
  replace (JS.gtb (DetectionRange.start d) (c + minSegment)) with false
    by (symmetry; apply gtb_le; lra).
  cbn [app].
  pose proof (Q.le_max_l c (DetectionRange.end_ d)) as M1.
  pose proof (Q.le_max_r c (DetectionRange.end_ d)) as M2.
  destruct Hin as [-> | Hin].
  - apply keepFrom_nothing; [| exact Hl']. unfold JS.Math_max. lra.
  - apply IH; try assumption. unfold JS.Math_max. lra.
Qed.

(** X23. When one detection reaches within [minSegment] of both ends
    of the video and every detection starts within the video, nothing is
    kept. *)
Theorem getKeepRanges_fully_detected
    (detections : list DetectionRange.t) (D : Q) (whole : DetectionRange.t) :
  In whole detections ->
  DetectionRange.start whole <= minSegment ->
  D - minSegment <= DetectionRange.end_ whole ->
  Forall (fun d => DetectionRange.start d <= D) detections ->
  getKeepRanges detections D = [].
Proof.
  intros Hin Hs He Hl.
  destruct (Qeq_dec D 0) as [HD | HD].
  - unfold getKeepRanges.
    replace (JS.not D) with true by (symmetry; apply eqb_eq, HD). reflexivity.
  - rewrite getKeepRanges_keepFrom; [| exact HD | intros ->; destruct Hin].
    apply (keepFrom_fully_detected D whole); try assumption.
    + apply Qle_refl.
    + apply (sort_sorted_key DetectionRange.start).
    + apply sort_Forall, Hl.
    + apply sort_In, Hin.
Qed.

Lemma getKeepRanges_fully_detected_witness :
  let whole := DetectionRange.mk (1 # 20) (995 # 100) 1 in
  let detections := [DetectionRange.mk 3 4 1; whole] in
  In whole detections
  /\ DetectionRange.start whole <= minSegment
  /\ 10 - minSegment <= DetectionRange.end_ whole
  /\ Forall (fun d => DetectionRange.start d <= 10) detections
  /\ getKeepRanges detections 10 = [].
Proof.
  cbv zeta.
  assert (H1 : In (DetectionRange.mk (1 # 20) (995 # 100) 1)
                  [DetectionRange.mk 3 4 1; DetectionRange.mk (1 # 20) (995 # 100) 1])
    by (right; left; reflexivity).
  assert (H2 : DetectionRange.start (DetectionRange.mk (1 # 20) (995 # 100) 1)
               <= minSegment) by discriminate.
  assert (H3 : 10 - minSegment
               <= DetectionRange.end_ (DetectionRange.mk (1 # 20) (995 # 100) 1))
    by discriminate.
  assert (H4 : Forall (fun d => DetectionRange.start d <= 10)
                 [DetectionRange.mk 3 4 1; DetectionRange.mk (1 # 20) (995 # 100) 1])
    by (repeat constructor; discriminate).
  repeat (split; [assumption |]).
  exact (getKeepRanges_fully_detected _ _ _ H1 H2 H3 H4).
Defined.

Lemma keepFrom_length (D : Q) (l : list DetectionRange.t) :
  forall c : Q, (List.length (keepFrom c l D) <= S (List.length l))%nat.
Proof.
  induction l as [| d l IH]; intros c.
  - unfold keepFrom. cbn [fold_left].
    destruct (JS.ltb c (D - minSegment)); cbn; lia.
  - rewrite keepFrom_cons, length_app.
    specialize (IH (JS.Math_max c (DetectionRange.end_ d))).
    destruct (JS.gtb (DetectionRange.start d) (c + minSegment)); cbn in *; lia.
Qed.

(** X24. [getKeepRanges] keeps at most one range more than there are
    detections. *)
Theorem getKeepRanges_count (detections : list DetectionRange.t) (D : Q) :
  (List.length (getKeepRanges detections D) <= S (List.length detections))%nat.
Proof.
  destruct (Qeq_dec D 0) as [HD | HD].
  - unfold getKeepRanges.
    replace (JS.not D) with true by (symmetry; apply eqb_eq, HD). cbn. lia.
  - destruct detections as [| d l].
    + rewrite (getKeepRanges_nil D HD). cbn. lia.
    + rewrite getKeepRanges_keepFrom; [| exact HD | discriminate].
      pose proof (keepFrom_length D (JS.sort byStart (d :: l)) 0) as H.
      rewrite (Permutation_length (sort_perm byStart (d :: l))) in H. exact H.
Qed.
